(** * minivect code generator: a shallow embedding of [codegen.py]

    The module defines three visitor classes: [CodeGen] (helpers shared by
    all generators), [CodeGenCleanup] (the traversal run when disposal code
    is generated) and [CCodeGen] (the C back end).  Handlers are written in
    open recursion: every handler receives the dispatcher [self.visit] as
    its first argument, the way a Python method reaches it through [self].
    The closed traversals [visit] and [cleanup_visit] tie the knot by
    structural recursion on the tree. *)

From Stdlib Require Import String Ascii List ZArith Lia.
From Stdlib Require Import DecimalString DecimalNat DecimalZ.
From stdpp Require Import gmap strings.
Import ListNotations.

Set Warnings "-register-all,-clear-no-such-hyp".
Local Open Scope string_scope.
Local Open Scope list_scope.

(** ** Python values and exceptions *)

Inductive exn : Type :=
| TypeError        (* wrong operand or argument count for [%], [+], [join] *)
| AttributeError   (* an attribute the object does not have *)
| IndexError       (* [pop] from an empty list *)
| ValueError       (* a write through a cursor the buffer does not hold *)
| DispatchFailure. (* [visit] found no handler for the object *)

Inductive result (A : Type) : Type :=
| OK (a : A)
| Err (e : exn).
Arguments OK {A} a.
Arguments Err {A} e.

(** ** The code writer *)

Definition cursor := nat.

Inductive fragment : Type :=
| Line (text : string)
| Mark (c : cursor).

(** Modelled from the spec: the code writer class, which is not part of
    [codegen.py].  The buffer is a gap buffer: a cursor [c] is the marker
    [Mark c], and a line written through [c] lands immediately before that
    marker, so text written through an insertion point stays where the
    point was taken while later writes of the parent follow it. *)
Record CodeWriter : Type := mkWriter {
  buffer : list fragment;
  proto_code : list string;
  fresh : cursor;
  declaration_levels : list cursor;
  loop_levels : list cursor;
  declaration_point : option cursor }.

Fixpoint insert_before (c : cursor) (f : fragment) (b : list fragment)
  : option (list fragment) :=
  match b with
  | [] => None
  | Mark c' :: r =>
      if Nat.eqb c c' then Some (f :: Mark c' :: r)
      else option_map (cons (Mark c')) (insert_before c f r)
  | Line s :: r => option_map (cons (Line s)) (insert_before c f r)
  end.

Fixpoint text_of (b : list fragment) : list string :=
  match b with
  | [] => []
  | Line s :: r => s :: text_of r
  | Mark _ :: r => text_of r
  end.

(** Final output: the prototype stream first, then the main buffer. *)
Definition getvalue (w : CodeWriter) : list string :=
  proto_code w ++ text_of (buffer w).

Definition set_buffer (b : list fragment) (w : CodeWriter) : CodeWriter :=
  mkWriter b (proto_code w) (fresh w) (declaration_levels w) (loop_levels w)
           (declaration_point w).

Definition writer_putln (c : cursor) (s : string) (w : CodeWriter)
  : result CodeWriter :=
  match insert_before c (Line s) (buffer w) with
  | Some b => OK (set_buffer b w)
  | None => Err ValueError
  end.

Definition writer_proto_putln (s : string) (w : CodeWriter) : CodeWriter :=
  mkWriter (buffer w) (proto_code w ++ [s]) (fresh w) (declaration_levels w)
           (loop_levels w) (declaration_point w).

Definition writer_insertion_point (c : cursor) (w : CodeWriter)
  : result (cursor * CodeWriter) :=
  match insert_before c (Mark (fresh w)) (buffer w) with
  | Some b =>
      OK (fresh w,
          mkWriter b (proto_code w) (S (fresh w)) (declaration_levels w)
                   (loop_levels w) (declaration_point w))
  | None => Err ValueError
  end.

Definition set_declaration_point (p : cursor) (w : CodeWriter) : CodeWriter :=
  mkWriter (buffer w) (proto_code w) (fresh w) (declaration_levels w)
           (loop_levels w) (Some p).

Definition set_levels (d l : list cursor) (w : CodeWriter) : CodeWriter :=
  mkWriter (buffer w) (proto_code w) (fresh w) d l (declaration_point w).

(** Python's [list.pop()]: the last element, [IndexError] on the empty list. *)
Fixpoint list_pop {A} (l : list A) : option (list A * A) :=
  match l with
  | [] => None
  | [x] => Some ([], x)
  | x :: r =>
      match list_pop r with
      | Some (r', y) => Some (x :: r', y)
      | None => None
      end
  end.

(** A writer on an empty buffer, its cursor being [0]. *)
Definition new_writer : CodeWriter := mkWriter [Mark 0] [] 1 [] [] None.

(** ** The tree *)

(** The value of a constant node: an integer or a string. *)
Inductive constant : Type :=
| IntConst (z : Z)
| StrConst (s : string).

Section Tree.

Context {type : Type}.

(** Modelled from the spec: the node classes, which are not part of
    [codegen.py]; the kinds and the fields are the ones the handlers read.
    A function node and a label node carry an object identity [oid], the key
    under which their mutable attribute [mangled_name] is stored.  The three
    header clauses of a loop may be absent ([None]).  The source's
    [Variable] is spelled [VariableNode], [Variable] being reserved. *)
Inductive node : Type :=
| FunctionNode (oid : nat) (name specialization_name : string)
               (arguments : list node) (body : node)
| FunctionArgument (variables : list node)
| StatListNode (stats : list node)
| ForNode (init condition step : option node) (body : node) (is_tiled : bool)
| ReturnNode (operand : node)
| BinopNode (lhs : node) (operator : string) (rhs : node)
| UnopNode (operator : string) (operand : node)
| TempNode (ty : type) (name : string)
| AssignmentExpr (lhs rhs : node)
| AssignmentNode (operand : node)
| CastNode (ty : type) (operand : node)
| DereferenceNode (operand : node)
| SingleIndexNode (lhs rhs : node)
| ArrayAttribute (name : string)
| VariableNode (ty : type) (name : string)
| JumpNode (label : node)
| JumpTargetNode (label : node)
| LabelNode (oid : nat) (name : string)
| ConstantNode (value : constant).

(** A child attribute holds one (possibly absent) node or a list of nodes. *)
Inductive children : Type :=
| Child (o : option node)
| ChildList (l : list node).

(** Modelled from the spec: [child_attrs], the child fields a generic
    traversal recurses into, in order. *)
Definition child_attrs (n : node) : list children :=
  match n with
  | FunctionNode _ _ _ arguments body => [Child (Some body); ChildList arguments]
  | FunctionArgument variables => [ChildList variables]
  | StatListNode stats => [ChildList stats]
  | ForNode init condition step body _ =>
      [Child init; Child condition; Child step; Child (Some body)]
  | ReturnNode operand => [Child (Some operand)]
  | BinopNode lhs _ rhs => [Child (Some lhs); Child (Some rhs)]
  | UnopNode _ operand => [Child (Some operand)]
  | TempNode _ _ => []
  | AssignmentExpr lhs rhs => [Child (Some lhs); Child (Some rhs)]
  | AssignmentNode operand => [Child (Some operand)]
  | CastNode _ operand => [Child (Some operand)]
  | DereferenceNode operand => [Child (Some operand)]
  | SingleIndexNode lhs rhs => [Child (Some lhs); Child (Some rhs)]
  | ArrayAttribute _ => []
  | VariableNode _ _ => []
  | JumpNode label => [Child (Some label)]
  | JumpTargetNode label => [Child (Some label)]
  | LabelNode _ _ => []
  | ConstantNode _ => []
  end.

(** The attribute [type]; reading it on a node without one raises. *)
Definition node_type (n : node) : result type :=
  match n with
  | TempNode ty _ | CastNode ty _ | VariableNode ty _ => OK ty
  | _ => Err AttributeError
  end.

(** What a handler hands back: [None], a string, an integer or a node. *)
Inductive value : Type :=
| VNone
| VStr (s : string)
| VInt (z : Z)
| VNode (n : node).

(** The result of [visit_childlist]: one value, or a list of values. *)
Inductive childresult : Type :=
| Single (v : value)
| Multiple (l : list value).

(** ** The collaborators *)

(** Modelled from the spec: the semantic context and the name mangling of
    the code writer, which are not part of [codegen.py].  The operations of
    the context receive the writer they are called with (its cursor and the
    buffer state) and return the state they leave. *)
Class Collaborators : Type := {
  mangle : string -> string;
  declare_type : type -> string;
  may_error : node -> bool;
  handler : Type;
  error_handler : cursor -> CodeWriter -> handler * CodeWriter;
  catch_here : handler -> cursor -> CodeWriter -> CodeWriter;
  cascade : handler -> cursor -> CodeWriter -> CodeWriter;
  generate_disposal_code : cursor -> node -> CodeWriter -> CodeWriter;
  repr : node -> string }.

End Tree.

Arguments node : clear implicits.
Arguments children : clear implicits.
Arguments value : clear implicits.
Arguments childresult : clear implicits.
Arguments Collaborators : clear implicits.

(** ** The generator and its monad *)

Section Generator.

Context {type X : Type} {collab : Collaborators type}.

(** The state of one run: the writer [self.code] (its cursor and the buffer
    state), the instance attributes of [CCodeGen], the [mangled_name]
    attributes of the function and label nodes, and [extra], the attributes a
    subclass adds (a test double records its calls there). *)
Record generator : Type := mkGen {
  code : cursor;
  writer : CodeWriter;
  declared_temps : gset string;
  label_counter : nat;
  label_mangled_name : gmap nat string;
  function_mangled_name : gmap nat string;
  extra : X }.

Definition set_writer (w : CodeWriter) (g : generator) : generator :=
  mkGen (code g) w (declared_temps g) (label_counter g)
        (label_mangled_name g) (function_mangled_name g) (extra g).

Definition set_extra (x : X) (g : generator) : generator :=
  mkGen (code g) (writer g) (declared_temps g) (label_counter g)
        (label_mangled_name g) (function_mangled_name g) x.

(** [self.declared_temps.add(name)] *)
Definition add_declared_temp (name : string) (g : generator) : generator :=
  mkGen (code g) (writer g) ({[name]} ∪ declared_temps g) (label_counter g)
        (label_mangled_name g) (function_mangled_name g) (extra g).

(** [node.mangled_name = name] on the function node [oid] *)
Definition set_function_mangled_name (oid : nat) (name : string)
  (g : generator) : generator :=
  mkGen (code g) (writer g) (declared_temps g) (label_counter g)
        (label_mangled_name g) (<[oid := name]> (function_mangled_name g))
        (extra g).

(** [node.mangled_name = name; self.label_counter += 1] on the label node
    [oid] *)
Definition assign_label (oid : nat) (name : string) (g : generator)
  : generator :=
  mkGen (code g) (writer g) (declared_temps g) (S (label_counter g))
        (<[oid := name]> (label_mangled_name g)) (function_mangled_name g)
        (extra g).

(** [CCodeGen.__init__]: no temporary declared, the class attribute
    [label_counter = 0], on the writer handed in. *)
Definition new_generator (c : cursor) (w : CodeWriter) (x : X) : generator :=
  mkGen c w ∅ 0 ∅ ∅ x.

Definition M (A : Type) : Type := generator -> result (A * generator).

Definition ret {A} (a : A) : M A := fun g => OK (a, g).

Definition bind {A B} (m : M A) (k : A -> M B) : M B :=
  fun g => match m g with
           | OK (a, g') => k a g'
           | Err e => Err e
           end.

Definition raise {A} (e : exn) : M A := fun _ => Err e.

Definition lift {A} (r : result A) : M A :=
  fun g => match r with OK a => OK (a, g) | Err e => Err e end.

Definition get : M generator := fun g => OK (g, g).

Definition modify (f : generator -> generator) : M unit :=
  fun g => OK (tt, f g).

End Generator.

Arguments generator : clear implicits.
Arguments M : clear implicits.

Declare Scope gen_scope.
Delimit Scope gen_scope with gen.
Notation "x <- c1 ;; c2" := (bind c1 (fun x => c2))
  (at level 100, c1 at next level, right associativity) : gen_scope.
Notation "c1 ;; c2" := (bind c1 (fun _ => c2))
  (at level 100, right associativity) : gen_scope.

Section Writer.

Context {type X : Type} {collab : Collaborators type}.
Local Open Scope gen_scope.

Local Abbreviation M := (M X).

(** [w.putln(s)] for the writer at cursor [c]. *)
Definition putln_at (c : cursor) (s : string) : M unit :=
  fun g => match writer_putln c s (writer g) with
           | OK w => OK (tt, set_writer w g)
           | Err e => Err e
           end.

(** [self.code.putln(s)] *)
Definition putln (s : string) : M unit :=
  g <- get ;; putln_at (code g) s.

(** [self.code.proto_code.putln(s)] *)
Definition proto_putln (s : string) : M unit :=
  modify (fun g => set_writer (writer_proto_putln s (writer g)) g).

(** [self.code.insertion_point()] *)
Definition insertion_point : M cursor :=
  fun g => match writer_insertion_point (code g) (writer g) with
           | OK (p, w) => OK (p, set_writer w g)
           | Err e => Err e
           end.

(** [self.code.declaration_levels.append(p)] *)
Definition append_declaration_level (p : cursor) : M unit :=
  modify (fun g =>
    set_writer (set_levels (declaration_levels (writer g) ++ [p])
                           (loop_levels (writer g)) (writer g)) g).

(** [self.code.loop_levels.append(p)] *)
Definition append_loop_level (p : cursor) : M unit :=
  modify (fun g =>
    set_writer (set_levels (declaration_levels (writer g))
                           (loop_levels (writer g) ++ [p]) (writer g)) g).

(** [self.code.declaration_levels.pop()] *)
Definition pop_declaration_level : M cursor :=
  fun g => match list_pop (declaration_levels (writer g)) with
           | Some (d, p) =>
               OK (p, set_writer (set_levels d (loop_levels (writer g))
                                             (writer g)) g)
           | None => Err IndexError
           end.

(** [self.code.loop_levels.pop()] *)
Definition pop_loop_level : M cursor :=
  fun g => match list_pop (loop_levels (writer g)) with
           | Some (l, p) =>
               OK (p, set_writer (set_levels (declaration_levels (writer g)) l
                                             (writer g)) g)
           | None => Err IndexError
           end.

(** The operations of the semantic context, called on [self.code]. *)
Definition context_error_handler : M handler :=
  fun g => let (h, w) := error_handler (code g) (writer g) in
           OK (h, set_writer w g).

Definition handler_catch_here (h : handler) : M unit :=
  modify (fun g => set_writer (catch_here h (code g) (writer g)) g).

Definition handler_cascade (h : handler) : M unit :=
  modify (fun g => set_writer (cascade h (code g) (writer g)) g).

Definition context_generate_disposal_code (c : cursor) (n : node type)
  : M unit :=
  modify (fun g => set_writer (generate_disposal_code c n (writer g)) g).

(** ** String formatting *)

Definition str_of_Z (z : Z) : string := NilEmpty.string_of_int (Z.to_int z).

(** Python's [str()]. *)
Definition str (v : value type) : string :=
  match v with
  | VNone => "None"
  | VStr s => s
  | VInt z => str_of_Z z
  | VNode n => repr n
  end.

Definition str_of_constant (c : constant) : string :=
  match c with
  | IntConst z => str_of_Z z
  | StrConst s => s
  end.

Definition prepend (s : string) (r : result string) : result string :=
  match r with
  | OK t => OK (s +:+ t)
  | Err e => Err e
  end.

(** The [%] operator on a template with [%s] and [%d] directives and a
    tuple of arguments; too few or too many arguments raise [TypeError]. *)
Fixpoint percent (template : string) (args : list (value type))
  : result string :=
  match template with
  | EmptyString =>
      match args with
      | [] => OK ""
      | _ :: _ => Err TypeError
      end
  | String c rest =>
      if Ascii.eqb c "%" then
        match rest with
        | EmptyString => Err ValueError
        | String d rest' =>
            if Ascii.eqb d "s" then
              match args with
              | a :: args' => prepend (str a) (percent rest' args')
              | [] => Err TypeError
              end
            else if Ascii.eqb d "d" then
              match args with
              | VInt z :: args' => prepend (str_of_Z z) (percent rest' args')
              | _ => Err TypeError
              end
            else Err ValueError
        end
      else prepend (String c "") (percent rest args)
  end.

(** [sep.join(items)]; an item that is not a string raises [TypeError]. *)
Fixpoint join (sep : string) (items : list (value type)) : result string :=
  match items with
  | [] => OK ""
  | [VStr s] => OK s
  | VStr s :: rest => prepend (s +:+ sep) (join sep rest)
  | _ :: _ => Err TypeError
  end.

(** [v + s] for a string [s]. *)
Definition add_str (v : value type) (s : string) : result string :=
  match v with
  | VStr t => OK (t +:+ s)
  | _ => Err TypeError
  end.

End Writer.

(** ** The visitor classes *)

Section Visitor.

Context {type X : Type} {collab : Collaborators type}.
Local Open Scope gen_scope.

Local Abbreviation M := (M X).
Local Abbreviation node := (node type).
Local Abbreviation pyval := (value type).

Definition mapM {A B} (f : A -> M B) : list A -> M (list B) :=
  fix go (l : list A) : M (list B) :=
    match l with
    | [] => ret []
    | x :: r => v <- f x ;; vs <- go r ;; ret (v :: vs)
    end.

(** [self.visit], the dispatcher the handlers call back into. *)
Variable visit : option node -> M pyval.

(** *** [minivisitor.TreeVisitor] *)

(** Modelled from the spec: [TreeVisitor.visit_childlist], the base class
    not being part of [codegen.py]; it visits a single child, or every
    element of a list in order. *)
Definition visit_childlist (child : children type) : M (childresult type) :=
  match child with
  | Child o => v <- visit o ;; ret (Single v)
  | ChildList l => vs <- mapM (fun n => visit (Some n)) l ;; ret (Multiple vs)
  end.

(** Modelled from the spec: [TreeVisitor.visitchildren]; it visits every
    child attribute in order and returns nothing. *)
Definition visitchildren (n : node) : M unit :=
  _ <- mapM visit_childlist (child_attrs n) ;; ret tt.

(** *** [CodeGen] *)

Fixpoint results_from (nodes : list (children type)) (results : list pyval)
  : M (list pyval) :=
  match nodes with
  | [] => ret results
  | childlist :: rest =>
      result <- visit_childlist childlist ;;
      match result with
      | Multiple l => results_from rest (results ++ l)
      | Single v => results_from rest (results ++ [v])
      end
  end.

Definition results (nodes : list (children type)) : M (list pyval) :=
  results_from nodes [].

Definition visitchild (o : option node) : M pyval :=
  match o with
  | None => ret VNone
  | Some n => visit (Some n)
  end.

(** *** [CodeGenCleanup] *)

Definition CodeGenCleanup_visit_Node (n : node) : M pyval :=
  visitchildren n ;; ret VNone.

Definition CodeGenCleanup_visit_ForNode (init condition step : option node)
  (body : node) (is_tiled : bool) : M pyval :=
  visit init ;;
  visit condition ;;
  visit step ;;
  ret VNone.

(** *** [CCodeGen] *)

Definition visit_FunctionNode (oid : nat) (name specialization_name : string)
  (arguments : list node) (body : node) : M pyval :=
  let name' := mangle (name +:+ specialization_name) in
  modify (set_function_mangled_name oid name') ;;
  args <- results [ChildList arguments] ;;
  joined <- lift (join ", " args) ;;
  proto <- lift (percent "static int %s(%s)" [VStr name'; VStr joined]) ;;
  proto_putln (proto +:+ ";") ;;
  line <- lift (percent "%s {" [VStr proto]) ;;
  putln line ;;
  p <- insertion_point ;;
  modify (fun g => set_writer (set_declaration_point p (writer g)) g) ;;
  visitchildren (FunctionNode oid name specialization_name arguments body) ;;
  putln "}" ;;
  ret VNone.

Definition visit_FunctionArgument (variables : list node) : M pyval :=
  items <- mapM (fun v =>
             ty <- lift (node_type v) ;;
             r <- visit (Some v) ;;
             s <- lift (percent "%s %s" [VStr (declare_type ty); r]) ;;
             ret (VStr s : pyval)) variables ;;
  s <- lift (join ", " items) ;;
  ret (VStr s).

Definition visit_StatListNode (stats : list node) : M pyval :=
  visitchildren (StatListNode stats) ;;
  ret (VNode (StatListNode stats)).

Definition visit_ForNode (init condition step : option node) (body : node)
  (is_tiled : bool) : M pyval :=
  error_handler <-
    (if may_error body
     then h <- context_error_handler ;; ret (Some h)
     else ret None) ;;
  exprs <- results [Child init; Child condition; Child step] ;;
  line <- lift (percent "for (%s; %s; %s) {" exprs) ;;
  putln line ;;
  (if negb is_tiled
   then p <- insertion_point ;;
        append_declaration_level p ;;
        q <- insertion_point ;;
        append_loop_level q
   else ret tt) ;;
  visit init ;;
  visit (Some body) ;;
  disposal_point <-
    match error_handler with
    | Some h =>
        handler_catch_here h ;;
        p <- insertion_point ;;
        handler_cascade h ;;
        ret p
    | None => g <- get ;; ret (code g)
    end ;;
  g <- get ;;
  context_generate_disposal_code (code g) body ;;
  (if negb is_tiled
   then pop_declaration_level ;; pop_loop_level ;; ret tt
   else ret tt) ;;
  putln "}" ;;
  ret VNone.

Definition visit_ReturnNode (operand : node) : M pyval :=
  exprs <- results [Child (Some operand)] ;;
  line <- lift (percent "return %s;" exprs) ;;
  putln line ;;
  ret VNone.

Definition visit_BinopNode (lhs : node) (operator : string) (rhs : node)
  : M pyval :=
  l <- visit (Some lhs) ;;
  r <- visit (Some rhs) ;;
  s <- lift (percent "(%s %s %s)" [l; VStr operator; r]) ;;
  ret (VStr s).

Definition visit_UnopNode (operator : string) (operand : node) : M pyval :=
  v <- visit (Some operand) ;;
  s <- lift (percent "(%s%s)" [VStr operator; v]) ;;
  ret (VStr s).

Definition visit_TempNode (ty : type) (name : string) : M pyval :=
  let name' := mangle name in
  g <- get ;;
  if decide (name' ∈ declared_temps g) then ret (VStr name')
  else
    modify (add_declared_temp name') ;;
    g <- get ;;
    match declaration_point (writer g) with
    | None => raise AttributeError
    | Some code' =>
        line <- lift (percent "%s %s;" [VStr (declare_type ty); VStr name']) ;;
        putln_at code' line ;;
        ret (VStr name')
    end.

Definition visit_AssignmentExpr (lhs rhs : node) : M pyval :=
  exprs <- results [Child (Some lhs); Child (Some rhs)] ;;
  s <- lift (percent "%s = %s" exprs) ;;
  ret (VStr s).

Definition visit_AssignmentNode (operand : node) : M pyval :=
  v <- visit (Some operand) ;;
  line <- lift (add_str v ";") ;;
  putln line ;;
  ret VNone.

Definition visit_CastNode (ty : type) (operand : node) : M pyval :=
  v <- visit (Some operand) ;;
  s <- lift (percent "((%s) %s)" [VStr (declare_type ty); v]) ;;
  ret (VStr s).

Definition visit_DereferenceNode (operand : node) : M pyval :=
  v <- visit (Some operand) ;;
  s <- lift (percent "(*%s)" [v]) ;;
  ret (VStr s).

Definition visit_SingleIndexNode (lhs rhs : node) : M pyval :=
  exprs <- results [Child (Some lhs); Child (Some rhs)] ;;
  s <- lift (percent "(%s[%s])" exprs) ;;
  ret (VStr s).

Definition visit_ArrayAttribute (name : string) : M pyval :=
  ret (VStr name).

Definition visit_Variable (ty : type) (name : string) : M pyval :=
  ret (VStr (mangle name)).

Definition visit_JumpNode (label : node) : M pyval :=
  exprs <- results [Child (Some label)] ;;
  line <- lift (percent "goto %s;" exprs) ;;
  putln line ;;
  ret VNone.

Definition visit_JumpTargetNode (label : node) : M pyval :=
  exprs <- results [Child (Some label)] ;;
  line <- lift (percent "%s:" exprs) ;;
  putln line ;;
  ret VNone.

Definition visit_LabelNode (oid : nat) (name : string) : M pyval :=
  g <- get ;;
  match label_mangled_name g !! oid with
  | Some mangled_name => ret (VStr mangled_name)
  | None =>
      mangled_name <-
        lift (percent "%s%d" [VStr name; VInt (Z.of_nat (label_counter g))]) ;;
      modify (assign_label oid mangled_name) ;;
      ret (VStr mangled_name)
  end.

Definition visit_ConstantNode (value : constant) : M pyval :=
  ret (VStr (str_of_constant value)).

(** Dispatch by node kind: [CCodeGen] has a handler for every kind. *)
Definition CCodeGen_dispatch (n : node) : M pyval :=
  match n with
  | FunctionNode oid name specialization_name arguments body =>
      visit_FunctionNode oid name specialization_name arguments body
  | FunctionArgument variables => visit_FunctionArgument variables
  | StatListNode stats => visit_StatListNode stats
  | ForNode init condition step body is_tiled =>
      visit_ForNode init condition step body is_tiled
  | ReturnNode operand => visit_ReturnNode operand
  | BinopNode lhs operator rhs => visit_BinopNode lhs operator rhs
  | UnopNode operator operand => visit_UnopNode operator operand
  | TempNode ty name => visit_TempNode ty name
  | AssignmentExpr lhs rhs => visit_AssignmentExpr lhs rhs
  | AssignmentNode operand => visit_AssignmentNode operand
  | CastNode ty operand => visit_CastNode ty operand
  | DereferenceNode operand => visit_DereferenceNode operand
  | SingleIndexNode lhs rhs => visit_SingleIndexNode lhs rhs
  | ArrayAttribute name => visit_ArrayAttribute name
  | VariableNode ty name => visit_Variable ty name
  | JumpNode label => visit_JumpNode label
  | JumpTargetNode label => visit_JumpTargetNode label
  | LabelNode oid name => visit_LabelNode oid name
  | ConstantNode value => visit_ConstantNode value
  end.

(** Dispatch in [CodeGenCleanup]: [visit_ForNode] for a loop, the generic
    [visit_Node] for every other kind. *)
Definition CodeGenCleanup_dispatch (n : node) : M pyval :=
  match n with
  | FunctionNode oid name specialization_name arguments body =>
      CodeGenCleanup_visit_Node
        (FunctionNode oid name specialization_name arguments body)
  | FunctionArgument variables =>
      CodeGenCleanup_visit_Node (FunctionArgument variables)
  | StatListNode stats => CodeGenCleanup_visit_Node (StatListNode stats)
  | ForNode init condition step body is_tiled =>
      CodeGenCleanup_visit_ForNode init condition step body is_tiled
  | ReturnNode operand => CodeGenCleanup_visit_Node (ReturnNode operand)
  | BinopNode lhs operator rhs =>
      CodeGenCleanup_visit_Node (BinopNode lhs operator rhs)
  | UnopNode operator operand =>
      CodeGenCleanup_visit_Node (UnopNode operator operand)
  | TempNode ty name => CodeGenCleanup_visit_Node (TempNode ty name)
  | AssignmentExpr lhs rhs => CodeGenCleanup_visit_Node (AssignmentExpr lhs rhs)
  | AssignmentNode operand => CodeGenCleanup_visit_Node (AssignmentNode operand)
  | CastNode ty operand => CodeGenCleanup_visit_Node (CastNode ty operand)
  | DereferenceNode operand =>
      CodeGenCleanup_visit_Node (DereferenceNode operand)
  | SingleIndexNode lhs rhs =>
      CodeGenCleanup_visit_Node (SingleIndexNode lhs rhs)
  | ArrayAttribute name => CodeGenCleanup_visit_Node (ArrayAttribute name)
  | VariableNode ty name => CodeGenCleanup_visit_Node (VariableNode ty name)
  | JumpNode label => CodeGenCleanup_visit_Node (JumpNode label)
  | JumpTargetNode label => CodeGenCleanup_visit_Node (JumpTargetNode label)
  | LabelNode oid name => CodeGenCleanup_visit_Node (LabelNode oid name)
  | ConstantNode value => CodeGenCleanup_visit_Node (ConstantNode value)
  end.

End Visitor.

(** ** The closed traversals *)

Section Closed.

Context {type X : Type} {collab : Collaborators type}.

(** [CCodeGen.visit].  Modelled from the spec: the dispatch of
    [TreeVisitor.visit] on an absent object, which has no handler, is a
    dispatch failure. *)
Fixpoint visit (n : node type) : M X (value type) :=
  CCodeGen_dispatch
    (fun o => match o with
              | Some m => visit m
              | None => raise DispatchFailure
              end) n.

(** [CodeGenCleanup.visit], with the same dispatch. *)
Fixpoint cleanup_visit (n : node type) : M X (value type) :=
  CodeGenCleanup_dispatch
    (fun o => match o with
              | Some m => cleanup_visit m
              | None => raise DispatchFailure
              end) n.

(** The dispatchers the two traversals hand to their handlers. *)
Definition self_visit (o : option (node type)) : M X (value type) :=
  match o with
  | Some m => visit m
  | None => raise DispatchFailure
  end.

Definition cleanup_self_visit (o : option (node type)) : M X (value type) :=
  match o with
  | Some m => cleanup_visit m
  | None => raise DispatchFailure
  end.

(** The two stacks of a writer. *)
Definition levels (w : CodeWriter) : list cursor * list cursor :=
  (declaration_levels w, loop_levels w).

(** The operations of the context leave the two stacks of the writer as
    they are. *)
Definition context_keeps_levels : Prop :=
  (forall c w, levels (snd (error_handler c w)) = levels w) /\
  (forall h c w, levels (catch_here h c w) = levels w) /\
  (forall h c w, levels (cascade h c w) = levels w) /\
  (forall c n w, levels (generate_disposal_code c n w) = levels w).

End Closed.

(** ** A concrete back end

    A small instance of the collaborators, used to run the generator: the
    identity mangling, two types, a context whose error handler writes the
    lines [catch:] and [cascade;] and whose disposal code is the line
    [dispose;], each through the writer it is called with. *)

Inductive ctype : Type :=
| c_int
| c_double.

Definition write_line (s : string) (c : cursor) (w : CodeWriter) : CodeWriter :=
  match writer_putln c s w with
  | OK w' => w'
  | Err _ => w
  end.

Definition c_backend : Collaborators ctype := {|
  mangle := fun s => s;
  declare_type := fun t => match t with c_int => "int" | c_double => "double" end;
  may_error := fun n => match n with AssignmentNode _ => true | _ => false end;
  handler := unit;
  error_handler := fun _ w => (tt, w);
  catch_here := fun _ => write_line "catch:";
  cascade := fun _ => write_line "cascade;";
  generate_disposal_code := fun c _ => write_line "dispose;" c;
  repr := fun _ => "<node>" |}.

(** The same back end with a mangling that prefixes every name. *)
Definition prefix_backend : Collaborators ctype := {|
  mangle := fun s => "__mv_" +:+ s;
  declare_type := @declare_type _ c_backend;
  may_error := @may_error _ c_backend;
  handler := unit;
  error_handler := @error_handler _ c_backend;
  catch_here := @catch_here _ c_backend;
  cascade := @cascade _ c_backend;
  generate_disposal_code := @generate_disposal_code _ c_backend;
  repr := @repr _ c_backend |}.

(** A run on a fresh writer, and the text it leaves. *)
Definition run {type : Type} (collab : Collaborators type) (n : node type)
  : result (value type * generator unit) :=
  @visit type unit collab n (new_generator 0 new_writer tt).

Definition output {type X : Type} (r : result (value type * generator X))
  : option (list string) :=
  match r with
  | OK (_, g) => Some (getvalue (writer g))
  | Err _ => None
  end.

(** * Reasoning about runs *)

Section Monad_facts.

Context {type X : Type} {collab : Collaborators type}.
Local Open Scope gen_scope.

Local Abbreviation M := (M X).
Local Abbreviation generator := (generator X).

Lemma bind_OK {A B} (m : M A) (k : A -> M B) g b g' :
  bind m k g = OK (b, g') ->
  exists a g1, m g = OK (a, g1) /\ k a g1 = OK (b, g').
Proof.
  unfold bind. destruct (m g) as [[a g1]|e]; [|discriminate].
  intros H. exists a, g1. split; [reflexivity|exact H].
Qed.

Lemma lift_OK {A} (r : result A) g a g' :
  lift (X:=X) r g = OK (a, g') -> r = OK a /\ g' = g.
Proof.
  unfold lift. destruct r; [|discriminate].
  intros H. inversion H. subst. split; reflexivity.
Qed.

Lemma ret_OK {A} (a : A) g b g' :
  ret (X:=X) a g = OK (b, g') -> b = a /\ g' = g.
Proof. unfold ret. intros H. inversion H. split; reflexivity. Qed.

Lemma get_OK g a g' : get (X:=X) g = OK (a, g') -> a = g /\ g' = g.
Proof. unfold get. intros H. inversion H. split; reflexivity. Qed.

Lemma modify_OK f g a g' : modify (X:=X) f g = OK (a, g') -> g' = f g.
Proof. unfold modify. intros H. inversion H. reflexivity. Qed.

(** [keeps Q m]: every successful run of [m] relates its two states by [Q]. *)
Definition keeps (Q : generator -> generator -> Prop) {A} (m : M A) : Prop :=
  forall g a g', m g = OK (a, g') -> Q g g'.

Section Keeps.

Variable Q : generator -> generator -> Prop.
Hypothesis Q_refl : forall g, Q g g.
Hypothesis Q_trans : forall g1 g2 g3, Q g1 g2 -> Q g2 g3 -> Q g1 g3.

Lemma keeps_ret {A} (a : A) : keeps Q (ret a).
Proof. intros g b g' H. apply ret_OK in H as [_ ->]. apply Q_refl. Qed.

Lemma keeps_raise {A} e : keeps Q (raise (A:=A) e).
Proof. intros g b g' H. discriminate H. Qed.

Lemma keeps_lift {A} (r : result A) : keeps Q (lift r).
Proof. intros g b g' H. apply lift_OK in H as [_ ->]. apply Q_refl. Qed.

Lemma keeps_get : keeps Q get.
Proof. intros g b g' H. apply get_OK in H as [_ ->]. apply Q_refl. Qed.

Lemma keeps_bind {A B} (m : M A) (k : A -> M B) :
  keeps Q m -> (forall a, keeps Q (k a)) -> keeps Q (bind m k).
Proof.
  intros Hm Hk g b g' H. apply bind_OK in H as (a & g1 & H1 & H2).
  eapply Q_trans; [eapply Hm, H1 | eapply Hk, H2].
Qed.

Lemma keeps_modify f : (forall g, Q g (f g)) -> keeps Q (modify f).
Proof. intros Hf g b g' H. apply modify_OK in H as ->. apply Hf. Qed.

Lemma keeps_mapM {A B} (f : A -> M B) (l : list A) :
  Forall (fun x => keeps Q (f x)) l -> keeps Q (mapM f l).
Proof.
  induction 1 as [|x r Hx Hr IH]; simpl.
  - apply keeps_ret.
  - apply keeps_bind; [exact Hx|]. intros v.
    apply keeps_bind; [exact IH|]. intros vs. apply keeps_ret.
Qed.

(** The helpers of [TreeVisitor] and [CodeGen] keep what the dispatcher
    keeps on the children they visit. *)
Variable self : option (node type) -> M (value type).

Definition keeps_child (c : children type) : Prop :=
  match c with
  | Child o => keeps Q (self o)
  | ChildList l => Forall (fun n => keeps Q (self (Some n))) l
  end.

Lemma keeps_visit_childlist c :
  keeps_child c -> keeps Q (visit_childlist self c).
Proof.
  destruct c as [o|l]; simpl; intros H.
  - apply keeps_bind; [exact H|]. intros v. apply keeps_ret.
  - apply keeps_bind; [apply keeps_mapM; exact H|]. intros v. apply keeps_ret.
Qed.

Lemma keeps_results_from nodes :
  Forall keeps_child nodes -> forall acc, keeps Q (results_from self nodes acc).
Proof.
  induction 1 as [|c r Hc Hr IH]; intros acc; simpl.
  - apply keeps_ret.
  - apply keeps_bind; [apply keeps_visit_childlist, Hc|].
    intros [v|l]; apply IH.
Qed.

Lemma keeps_results nodes :
  Forall keeps_child nodes -> keeps Q (results self nodes).
Proof. intros H. apply keeps_results_from, H. Qed.

Lemma keeps_visitchildren n :
  Forall keeps_child (child_attrs n) -> keeps Q (visitchildren self n).
Proof.
  intros H. unfold visitchildren.
  apply keeps_bind; [|intros; apply keeps_ret].
  apply keeps_mapM. eapply Forall_impl; [exact H|].
  intros c Hc. apply keeps_visit_childlist, Hc.
Qed.

End Keeps.

End Monad_facts.

(** ** Induction on trees through their child attributes *)

Section Tree_induction.

Context {type : Type}.

Definition on_child (P : node type -> Prop) (c : children type) : Prop :=
  match c with
  | Child None => True
  | Child (Some n) => P n
  | ChildList l => Forall P l
  end.

Variable P : node type -> Prop.
Hypothesis step : forall n, Forall (on_child P) (child_attrs n) -> P n.

Fixpoint node_children_ind (n : node type) : P n.
Proof.
  assert (Hlist : forall l : list (node type), Forall P l).
  { fix go 1. intros [|x r]; constructor; [apply node_children_ind|apply go]. }
  assert (Hopt : forall o : option (node type), on_child P (Child o)).
  { intros [m|]; simpl; [apply node_children_ind|exact I]. }
  apply step. destruct n; simpl; repeat constructor;
    solve [apply Hlist | apply Hopt | apply node_children_ind].
Qed.

End Tree_induction.

(** The label nodes of a tree, with their base names. *)
Fixpoint labels_of {type : Type} (n : node type) : list (nat * string) :=
  let opt o := match o with Some m => labels_of m | None => [] end in
  match n with
  | FunctionNode _ _ _ arguments body =>
      labels_of body ++ flat_map labels_of arguments
  | FunctionArgument variables => flat_map labels_of variables
  | StatListNode stats => flat_map labels_of stats
  | ForNode init condition step body _ =>
      opt init ++ opt condition ++ opt step ++ labels_of body
  | ReturnNode operand => labels_of operand
  | BinopNode lhs _ rhs => labels_of lhs ++ labels_of rhs
  | UnopNode _ operand => labels_of operand
  | AssignmentExpr lhs rhs => labels_of lhs ++ labels_of rhs
  | AssignmentNode operand => labels_of operand
  | CastNode _ operand => labels_of operand
  | DereferenceNode operand => labels_of operand
  | SingleIndexNode lhs rhs => labels_of lhs ++ labels_of rhs
  | JumpNode label => labels_of label
  | JumpTargetNode label => labels_of label
  | LabelNode oid name => [(oid, name)]
  | TempNode _ _ | ArrayAttribute _ | VariableNode _ _ | ConstantNode _ => []
  end.

Definition labels_of_child {type : Type} (c : children type)
  : list (nat * string) :=
  match c with
  | Child None => []
  | Child (Some n) => labels_of n
  | ChildList l => flat_map labels_of l
  end.

Lemma labels_of_children {type : Type} (n : node type) :
  match n with
  | LabelNode oid name => labels_of n = [(oid, name)]
  | _ => labels_of n = flat_map labels_of_child (child_attrs n)
  end.
Proof.
  destruct n; simpl; rewrite ?app_nil_r; reflexivity.
Qed.

(** ** A rule for whole runs

    Whatever relation [R] on generator states is reflexive, transitive,
    blind to the writer, and kept by the three updates of the generator's
    own attributes, is kept by every successful traversal; so are the cursor
    [code] and, when the context keeps them, the two stacks of the writer. *)

Section Run_rule.

Context {type X : Type} {collab : Collaborators type}.
Local Open Scope gen_scope.

Local Abbreviation M := (M X).
Local Abbreviation generator := (generator X).
Local Abbreviation node := (node type).

Lemma visit_unfold (n : node) :
  visit (X:=X) n = CCodeGen_dispatch self_visit n.
Proof. destruct n; reflexivity. Qed.

Lemma cleanup_visit_unfold (n : node) :
  cleanup_visit (X:=X) n = CodeGenCleanup_dispatch cleanup_self_visit n.
Proof. destruct n; reflexivity. Qed.

Lemma append_empty_r (s : string) : s +:+ "" = s.
Proof.
  induction s as [|c s IH]; [reflexivity|].
  change (String c (s +:+ "") = String c s). rewrite IH. reflexivity.
Qed.

Lemma percent_label (name : string) (z : Z) :
  percent (type:=type) "%s%d" [VStr name; VInt z] = OK (name +:+ str_of_Z z).
Proof. simpl. rewrite append_empty_r. reflexivity. Qed.

Variable R : generator -> generator -> Prop.
Variable L : nat -> string -> Prop.
Hypothesis R_refl : forall g, R g g.
Hypothesis R_trans : forall g1 g2 g3, R g1 g2 -> R g2 g3 -> R g1 g3.
Hypothesis R_writer : forall g w, R g (set_writer w g).
Hypothesis R_temp : forall g s, R g (add_declared_temp s g).
Hypothesis R_function :
  forall g oid s, R g (set_function_mangled_name oid s g).
Hypothesis R_label :
  forall g oid name,
    L oid name -> label_mangled_name g !! oid = None ->
    R g (assign_label oid (name +:+ str_of_Z (Z.of_nat (label_counter g))) g).

(** [R] and the cursor: kept by every step, pushes and pops included. *)
Definition weak (g g' : generator) : Prop := R g g' /\ code g' = code g.

Definition sound (g g' : generator) : Prop :=
  weak g g' /\
  (context_keeps_levels -> levels (writer g') = levels (writer g)).

Lemma weak_refl g : weak g g.
Proof. split; [apply R_refl|reflexivity]. Qed.

Lemma weak_trans g1 g2 g3 : weak g1 g2 -> weak g2 g3 -> weak g1 g3.
Proof.
  intros [H1 E1] [H2 E2]. split; [eapply R_trans; eassumption|congruence].
Qed.

Lemma weak_writer g w : weak g (set_writer w g).
Proof. split; [apply R_writer|reflexivity]. Qed.

Lemma sound_refl g : sound g g.
Proof. split; [apply weak_refl|reflexivity]. Qed.

Lemma sound_trans g1 g2 g3 : sound g1 g2 -> sound g2 g3 -> sound g1 g3.
Proof.
  intros [W1 E1] [W2 E2]. split; [eapply weak_trans; eassumption|].
  intros F. rewrite (E2 F). apply (E1 F).
Qed.

Lemma sound_writer g w :
  levels w = levels (writer g) -> sound g (set_writer w g).
Proof. intros E. split; [apply weak_writer|intros _; exact E]. Qed.

Lemma sound_attr g g' :
  R g g' -> code g' = code g -> writer g' = writer g -> sound g g'.
Proof.
  intros HR Hc Hw. split; [split; assumption|]. intros _. rewrite Hw. reflexivity.
Qed.

Lemma putln_at_OK c s (g : generator) u g' :
  putln_at c s g = OK (u, g') ->
  exists b, insert_before c (Line s) (buffer (writer g)) = Some b /\
            g' = set_writer (set_buffer b (writer g)) g.
Proof.
  unfold putln_at, writer_putln.
  destruct (insert_before c (Line s) (buffer (writer g))) as [b|]; [|discriminate].
  intros H. inversion H. exists b. split; reflexivity.
Qed.

Lemma insertion_point_OK (g : generator) p g' :
  insertion_point g = OK (p, g') ->
  exists b, insert_before (code g) (Mark (fresh (writer g))) (buffer (writer g)) = Some b /\
            p = fresh (writer g) /\
            g' = set_writer (mkWriter b (proto_code (writer g)) (S (fresh (writer g)))
                               (declaration_levels (writer g)) (loop_levels (writer g))
                               (declaration_point (writer g))) g.
Proof.
  unfold insertion_point, writer_insertion_point.
  destruct (insert_before (code g) (Mark (fresh (writer g))) (buffer (writer g)))
    as [b|]; [|discriminate].
  intros H. inversion H. exists b. repeat split; reflexivity.
Qed.

Lemma keeps_putln_at c s : keeps sound (putln_at c s).
Proof.
  intros g u g' H. apply putln_at_OK in H as (b & _ & ->).
  apply sound_writer. reflexivity.
Qed.

Lemma keeps_putln s : keeps sound (putln s).
Proof.
  unfold putln. apply keeps_bind; [apply sound_trans|apply keeps_get, sound_refl|].
  intros g. apply keeps_putln_at.
Qed.

Lemma keeps_proto_putln s : keeps sound (proto_putln s).
Proof. apply keeps_modify. intros g. apply sound_writer. reflexivity. Qed.

Lemma keeps_insertion_point : keeps sound insertion_point.
Proof.
  intros g p g' H. apply insertion_point_OK in H as (b & _ & _ & ->).
  apply sound_writer. reflexivity.
Qed.

Lemma keeps_set_declaration_point p :
  keeps sound
    (modify (fun g : generator => set_writer (set_declaration_point p (writer g)) g)).
Proof. apply keeps_modify. intros g. apply sound_writer. reflexivity. Qed.

Lemma keeps_context_error_handler : keeps sound context_error_handler.
Proof.
  intros g h g' H. unfold context_error_handler in H.
  destruct (error_handler (code g) (writer g)) as [h' w] eqn:E.
  inversion H. subst. split; [apply weak_writer|].
  intros (F & _). specialize (F (code g) (writer g)). rewrite E in F. exact F.
Qed.

Lemma keeps_handler_catch_here h : keeps sound (handler_catch_here h).
Proof.
  apply keeps_modify. intros g. split; [apply weak_writer|].
  intros (_ & F & _). apply F.
Qed.

Lemma keeps_handler_cascade h : keeps sound (handler_cascade h).
Proof.
  apply keeps_modify. intros g. split; [apply weak_writer|].
  intros (_ & _ & F & _). apply F.
Qed.

Lemma keeps_generate_disposal_code c n :
  keeps sound (context_generate_disposal_code c n).
Proof.
  apply keeps_modify. intros g. split; [apply weak_writer|].
  intros (_ & _ & _ & F). apply F.
Qed.

Lemma keeps_add_declared_temp s : keeps sound (modify (add_declared_temp s)).
Proof.
  apply keeps_modify. intros g. apply sound_attr; [apply R_temp| |]; reflexivity.
Qed.

Lemma keeps_set_function_mangled_name oid s :
  keeps sound (modify (set_function_mangled_name oid s)).
Proof.
  apply keeps_modify. intros g.
  apply sound_attr; [apply R_function| |]; reflexivity.
Qed.

Definition labels_in (n : node) : Prop :=
  forall oid name, In (oid, name) (labels_of n) -> L oid name.

Lemma children_sound (cs : list (children type)) :
  Forall (on_child (fun m => labels_in m -> keeps sound (visit m))) cs ->
  (forall oid name, In (oid, name) (flat_map labels_of_child cs) -> L oid name) ->
  Forall (keeps_child sound self_visit) cs.
Proof.
  induction 1 as [|c r Hc Hr IH]; intros HL; constructor.
  - destruct c as [[m|]|l]; simpl in *.
    + apply Hc. intros oid name Hin. apply HL, in_or_app. left. exact Hin.
    + apply keeps_raise.
    + assert (HL' : forall oid name,
                 In (oid, name) (flat_map labels_of l) -> L oid name).
      { intros oid name Hin. apply HL, in_or_app. left. exact Hin. }
      clear HL Hr IH. induction Hc as [|m l' Hm Hl IHl]; constructor.
      * apply Hm. intros oid name Hin. apply HL'. simpl.
        apply in_or_app. left. exact Hin.
      * apply IHl. intros oid name Hin. apply HL'. simpl.
        apply in_or_app. right. exact Hin.
  - apply IH. intros oid name Hin. apply HL. simpl.
    apply in_or_app. right. exact Hin.
Qed.

Lemma children_of_sound (n : node) :
  Forall (on_child (fun m => labels_in m -> keeps sound (visit m)))
         (child_attrs n) ->
  labels_in n ->
  Forall (keeps_child sound self_visit) (child_attrs n).
Proof.
  intros IH HL. apply children_sound; [exact IH|].
  intros oid name Hin. apply HL.
  pose proof (labels_of_children n) as E.
  destruct n; try (rewrite E; exact Hin). destruct Hin.
Qed.

Ltac each_child :=
  repeat first [apply List.Forall_nil | apply List.Forall_cons];
  simpl; try assumption.

Ltac keeps_now :=
  repeat first
    [ assumption
    | apply keeps_ret, sound_refl
    | apply keeps_lift, sound_refl
    | apply keeps_get, sound_refl
    | apply keeps_raise
    | apply keeps_putln
    | apply keeps_putln_at
    | apply keeps_proto_putln
    | apply keeps_insertion_point
    | apply keeps_set_declaration_point
    | apply keeps_context_error_handler
    | apply keeps_handler_catch_here
    | apply keeps_handler_cascade
    | apply keeps_generate_disposal_code
    | apply keeps_add_declared_temp
    | apply keeps_set_function_mangled_name
    | apply keeps_results;
        [apply sound_refl | apply sound_trans
        | solve [each_child] ]
    | apply keeps_visitchildren;
        [apply sound_refl | apply sound_trans
        | solve [simpl; each_child] ]
    | apply keeps_bind; [apply sound_trans | | intros ?]
    | match goal with
      | |- keeps _ (if ?c then _ else _) => destruct c
      | |- keeps _ (match ?x with _ => _ end) => destruct x
      end ].

Lemma visit_LabelNode_sound oid name :
  L oid name -> keeps sound (visit_LabelNode (X:=X) oid name).
Proof.
  intros HL g v g' H. unfold visit_LabelNode in H.
  apply bind_OK in H as (g0 & g1 & Hget & H).
  apply get_OK in Hget as [-> ->].
  destruct (label_mangled_name g !! oid) as [s|] eqn:E.
  - apply ret_OK in H as [_ ->]. apply sound_refl.
  - apply bind_OK in H as (s & g1 & H1 & H).
    apply lift_OK in H1 as [H1 ->]. rewrite percent_label in H1.
    inversion H1; subst s; clear H1.
    apply bind_OK in H as (u & g2 & H2 & H).
    apply modify_OK in H2 as ->. apply ret_OK in H as [_ ->].
    apply sound_attr; [apply R_label; assumption| |]; reflexivity.
Qed.

Lemma list_pop_Some {A} (l d : list A) (x : A) :
  list_pop l = Some (d, x) -> l = d ++ [x].
Proof.
  revert d. induction l as [|y r IH]; intros d H; [discriminate|].
  simpl in H. destruct r as [|z r'].
  - inversion H. reflexivity.
  - destruct (list_pop (z :: r')) as [[r'' w]|]; [|discriminate].
    inversion H; subst. rewrite (IH r'' eq_refl). reflexivity.
Qed.

(** The two pushes of a loop that is not tiled. *)
Lemma push_levels_OK (g : generator) u g' :
  (p <- insertion_point ;;
   append_declaration_level p ;;
   q <- insertion_point ;;
   append_loop_level q) g = OK (u, g') ->
  weak g g' /\
  levels (writer g') =
    (declaration_levels (writer g) ++ [fresh (writer g)],
     loop_levels (writer g) ++ [S (fresh (writer g))]).
Proof.
  intros H.
  apply bind_OK in H as (p & g1 & H1 & H).
  apply insertion_point_OK in H1 as (b1 & _ & -> & ->).
  apply bind_OK in H as (u1 & g2 & H2 & H). apply modify_OK in H2 as ->.
  apply bind_OK in H as (q & g3 & H3 & H).
  apply insertion_point_OK in H3 as (b3 & _ & -> & ->).
  apply modify_OK in H as ->.
  split; [|reflexivity].
  split; [|reflexivity].
  eapply R_trans; [apply R_writer|]. eapply R_trans; [apply R_writer|].
  eapply R_trans; [apply R_writer|]. apply R_writer.
Qed.

(** The two pops of a loop that is not tiled. *)
Lemma pop_levels_OK (g : generator) u g' :
  (pop_declaration_level ;; pop_loop_level ;; ret tt) g = OK (u, g') ->
  weak g g' /\
  exists p q,
    levels (writer g) =
      (declaration_levels (writer g') ++ [p], loop_levels (writer g') ++ [q]).
Proof.
  intros H.
  apply bind_OK in H as (p & g1 & H1 & H).
  unfold pop_declaration_level in H1.
  destruct (list_pop (declaration_levels (writer g))) as [[d p']|] eqn:Ed;
    [|discriminate].
  inversion H1; subst; clear H1.
  apply bind_OK in H as (q & g2 & H2 & H).
  unfold pop_loop_level in H2. simpl in H2.
  destruct (list_pop (loop_levels (writer g))) as [[l q']|] eqn:El;
    [|discriminate].
  inversion H2; subst; clear H2.
  apply ret_OK in H as [_ ->].
  apply list_pop_Some in Ed, El.
  split.
  - split; [|reflexivity].
    eapply R_trans; [apply R_writer|]. apply R_writer.
  - exists p, q. unfold levels. simpl. rewrite Ed, El. reflexivity.
Qed.

Ltac peel H S :=
  let a := fresh "a" in
  let g1 := fresh "g" in
  let H1 := fresh "H" in
  apply bind_OK in H as (a & g1 & H1 & H);
  match type of H1 with
  | ?m ?g0 = OK (_, _) =>
      assert (S : sound g0 g1)
        by (refine ((_ : keeps sound m) g0 a g1 H1); keeps_now)
  end.

Lemma visit_ForNode_sound (self : option node -> M (value type))
  init condition step body is_tiled :
  keeps sound (self init) -> keeps sound (self condition) ->
  keeps sound (self step) -> keeps sound (self (Some body)) ->
  keeps sound (visit_ForNode self init condition step body is_tiled).
Proof.
  intros Hi Hc Hs Hb. destruct is_tiled.
  - unfold visit_ForNode. simpl negb. keeps_now.
  - intros g v g' H. unfold visit_ForNode in H. simpl negb in H. cbv iota in H.
    peel H S1. peel H S2. peel H S3. peel H S4.
    apply bind_OK in H as (u & g5 & Hpush & H).
    apply push_levels_OK in Hpush as [W5 E5].
    peel H S6. peel H S7. peel H S8. peel H S9. peel H S10.
    apply bind_OK in H as (u' & g11 & Hpop & H).
    apply pop_levels_OK in Hpop as (W11 & p & q & E11).
    peel H S12. apply ret_OK in H as [_ ->].
    pose proof (sound_trans _ _ _ S1 (sound_trans _ _ _ S2
                 (sound_trans _ _ _ S3 S4))) as Sa.
    pose proof (sound_trans _ _ _ S6 (sound_trans _ _ _ S7
                 (sound_trans _ _ _ S8 (sound_trans _ _ _ S9 S10)))) as Sb.
    destruct Sa as [Wa Ea], Sb as [Wb Eb], S12 as [Wc Ec].
    split.
    + eapply weak_trans; [exact Wa|]. eapply weak_trans; [exact W5|].
      eapply weak_trans; [exact Wb|]. eapply weak_trans; [exact W11|exact Wc].
    + intros F. rewrite (Ec F). rewrite <- (Ea F).
      specialize (Eb F). rewrite E5, E11 in Eb.
      unfold levels in *. inversion Eb as [[Ed El]].
      apply app_inj_tail in Ed as [Ed _]. apply app_inj_tail in El as [El _].
      congruence.
Qed.

(** Every successful traversal is sound. *)
Theorem visit_sound (n : node) : labels_in n -> keeps sound (visit n).
Proof.
  revert n.
  apply (node_children_ind (fun n => labels_in n -> keeps sound (visit n))).
  intros n IH HL. pose proof (children_of_sound n IH HL) as HC.
  rewrite visit_unfold.
  destruct n; simpl in HC;
    repeat match goal with
           | H : Forall (keeps_child _ _) (_ :: _) |- _ =>
               inversion H; subst; clear H
           | H : Forall (keeps_child _ _) [] |- _ => clear H
           end;
    simpl in *.
  - unfold visit_FunctionNode. keeps_now.
  - unfold visit_FunctionArgument. keeps_now.
    apply keeps_mapM; [apply sound_refl|apply sound_trans|].
    eapply Forall_impl; [eassumption|]. intros v Hv. simpl in Hv. keeps_now.
  - unfold visit_StatListNode. keeps_now.
  - apply visit_ForNode_sound; assumption.
  - unfold visit_ReturnNode. keeps_now.
  - unfold visit_BinopNode. keeps_now.
  - unfold visit_UnopNode. keeps_now.
  - unfold visit_TempNode. keeps_now.
  - unfold visit_AssignmentExpr. keeps_now.
  - unfold visit_AssignmentNode. keeps_now.
  - unfold visit_CastNode. keeps_now.
  - unfold visit_DereferenceNode. keeps_now.
  - unfold visit_SingleIndexNode. keeps_now.
  - unfold visit_ArrayAttribute. keeps_now.
  - unfold visit_Variable. keeps_now.
  - unfold visit_JumpNode. keeps_now.
  - unfold visit_JumpTargetNode. keeps_now.
  - apply visit_LabelNode_sound. apply HL. left. reflexivity.
  - unfold visit_ConstantNode. keeps_now.
Qed.

End Run_rule.

(** ** The gap buffer *)

Section Buffer_facts.

Lemma insert_before_Some c f b b' :
  insert_before c f b = Some b' ->
  exists pre post,
    b = pre ++ Mark c :: post /\ b' = pre ++ f :: Mark c :: post /\
    ~ In (Mark c) pre.
Proof.
  revert b'. induction b as [|x r IH]; intros b' H; [discriminate|].
  simpl in H. destruct x as [s|c'].
  - destruct (insert_before c f r) as [r'|]; [|discriminate].
    inversion H; subst; clear H.
    destruct (IH r' eq_refl) as (pre & post & -> & -> & Hn).
    exists (Line s :: pre), post. repeat split.
    intros [E|Hin]; [discriminate|contradiction].
  - destruct (Nat.eqb c c') eqn:E.
    + apply Nat.eqb_eq in E as <-. inversion H; subst; clear H.
      exists [], r. repeat split. intros [].
    + apply Nat.eqb_neq in E.
      destruct (insert_before c f r) as [r'|]; [|discriminate].
      inversion H; subst; clear H.
      destruct (IH r' eq_refl) as (pre & post & -> & -> & Hn).
      exists (Mark c' :: pre), post. repeat split.
      intros [E'|Hin]; [inversion E'; congruence|contradiction].
Qed.

Lemma insert_before_In c f b :
  In (Mark c) b -> exists b', insert_before c f b = Some b'.
Proof.
  induction b as [|x r IH]; intros Hin; [destruct Hin|].
  simpl. destruct x as [s|c'].
  - destruct Hin as [E|Hin]; [discriminate|].
    destruct (IH Hin) as [r' ->]. eexists. reflexivity.
  - destruct (Nat.eqb c c') eqn:E; [eexists; reflexivity|].
    destruct Hin as [E'|Hin].
    + inversion E'; subst. rewrite Nat.eqb_refl in E. discriminate.
    + destruct (IH Hin) as [r' ->]. eexists. reflexivity.
Qed.

Lemma text_of_app b1 b2 : text_of (b1 ++ b2) = text_of b1 ++ text_of b2.
Proof.
  induction b1 as [|[s|c] r IH]; simpl; [reflexivity| |exact IH].
  rewrite IH. reflexivity.
Qed.

Lemma text_of_insert_mark c p b b' :
  insert_before c (Mark p) b = Some b' -> text_of b' = text_of b.
Proof.
  intros H. apply insert_before_Some in H as (pre & post & -> & -> & _).
  rewrite !text_of_app. reflexivity.
Qed.

End Buffer_facts.

(** ** Decimal numerals *)

Section Numerals.

Definition is_digit (c : ascii) : bool :=
  (Nat.leb 48 (nat_of_ascii c) && Nat.leb (nat_of_ascii c) 57)%bool.

Fixpoint all_digits (s : string) : bool :=
  match s with
  | EmptyString => true
  | String c r => (is_digit c && all_digits r)%bool
  end.

(** The last character of the string is a decimal digit. *)
Fixpoint ends_in_digit (s : string) : bool :=
  match s with
  | EmptyString => false
  | String c EmptyString => is_digit c
  | String _ r => ends_in_digit r
  end.

Lemma string_of_uint_digits d : all_digits (NilEmpty.string_of_uint d) = true.
Proof. induction d; simpl; try rewrite IHd; reflexivity. Qed.

Lemma str_of_Z_digits (n : nat) : all_digits (str_of_Z (Z.of_nat n)) = true.
Proof.
  unfold str_of_Z. destruct (Z.of_nat n) eqn:E; simpl.
  - reflexivity.
  - apply string_of_uint_digits.
  - lia.
Qed.

Lemma str_of_Z_inj (z1 z2 : Z) : str_of_Z z1 = str_of_Z z2 -> z1 = z2.
Proof.
  unfold str_of_Z. intros H.
  apply (f_equal NilEmpty.int_of_string) in H.
  rewrite !NilEmpty.isi in H. inversion H as [E].
  apply DecimalZ.to_int_inj in E. exact E.
Qed.

Lemma all_digits_app s t :
  all_digits (s +:+ t) = (all_digits s && all_digits t)%bool.
Proof.
  induction s as [|c s IH]; [reflexivity|].
  change (all_digits (String c (s +:+ t))
          = (all_digits (String c s) && all_digits t)%bool).
  simpl. rewrite IH. rewrite andb_assoc. reflexivity.
Qed.

Lemma all_digits_ends s :
  s <> "" -> all_digits s = true -> ends_in_digit s = true.
Proof.
  induction s as [|c s IH]; intros Hne H; [congruence|].
  simpl in H. apply andb_prop in H as [Hc Hs].
  destruct s as [|c' s']; [exact Hc|].
  change (ends_in_digit (String c' s') = true). apply IH; [discriminate|exact Hs].
Qed.

Lemma ends_in_digit_tail c s :
  ends_in_digit (String c s) = false -> ends_in_digit s = false.
Proof. destruct s; [reflexivity|]. intros H. exact H. Qed.

(** Two base names that do not end in a digit, followed by numerals: the
    split is unique. *)
Lemma numeral_suffix_unique b1 b2 d1 d2 :
  ends_in_digit b1 = false -> ends_in_digit b2 = false ->
  all_digits d1 = true -> all_digits d2 = true ->
  b1 +:+ d1 = b2 +:+ d2 -> d1 = d2.
Proof.
  revert b2. induction b1 as [|c1 r1 IH]; intros b2 H1 H2 D1 D2 E.
  - destruct b2 as [|c2 r2]; [exact E|]. exfalso.
    change (d1 = String c2 r2 +:+ d2) in E. subst d1.
    rewrite all_digits_app in D1. apply andb_prop in D1 as [D1 _].
    apply all_digits_ends in D1; [congruence|discriminate].
  - destruct b2 as [|c2 r2].
    + exfalso. change (String c1 r1 +:+ d1 = d2) in E. subst d2.
      rewrite all_digits_app in D2. apply andb_prop in D2 as [D2 _].
      apply all_digits_ends in D2; [congruence|discriminate].
    + change (String c1 (r1 +:+ d1) = String c2 (r2 +:+ d2)) in E.
      inversion E as [[Ec Er]].
      apply (IH r2); try assumption; eapply ends_in_digit_tail; eassumption.
Qed.

Lemma equal_length_suffix b1 b2 d1 d2 :
  String.length b1 = String.length b2 ->
  b1 +:+ d1 = b2 +:+ d2 -> d1 = d2.
Proof.
  revert b2. induction b1 as [|c1 r1 IH]; intros [|c2 r2] Hl E;
    try discriminate Hl.
  - exact E.
  - change (String c1 (r1 +:+ d1) = String c2 (r2 +:+ d2)) in E.
    inversion E as [[Ec Er]]. simpl in Hl. apply (IH r2); [lia|exact Er].
Qed.

End Numerals.

(** ** The log of label assignments

    [label_log L c m log c' m']: from counter [c] and names [m], the names
    of the label nodes in [log] (object identity and base name, all
    satisfying [L]) were assigned one after the other, each to a node that
    had none, leaving counter [c'] and names [m']. *)

Section Label_log.

Variable L : nat -> string -> Prop.

Inductive label_log
  : nat -> gmap nat string -> list (nat * string) -> nat -> gmap nat string
    -> Prop :=
| log_nil c m : label_log c m [] c m
| log_cons c m oid name log c' m' :
    m !! oid = None -> L oid name ->
    label_log (S c) (<[oid := name +:+ str_of_Z (Z.of_nat c)]> m) log c' m' ->
    label_log c m ((oid, name) :: log) c' m'.

Lemma label_log_app c1 m1 log1 c2 m2 log2 c3 m3 :
  label_log c1 m1 log1 c2 m2 -> label_log c2 m2 log2 c3 m3 ->
  label_log c1 m1 (log1 ++ log2) c3 m3.
Proof.
  induction 1 as [|c m oid name log c' m' Hn HL H IH]; intros H2.
  - exact H2.
  - simpl. apply log_cons; [assumption..|]. apply IH, H2.
Qed.

Lemma label_log_counter c m log c' m' :
  label_log c m log c' m' -> c <= c'.
Proof. induction 1; lia. Qed.

Lemma label_log_stable c m log c' m' i s :
  label_log c m log c' m' -> m !! i = Some s -> m' !! i = Some s.
Proof.
  induction 1 as [|c m oid name log c' m' Hn HL H IH]; intros Hi; [exact Hi|].
  apply IH. rewrite lookup_insert_ne; [exact Hi|]. congruence.
Qed.

Lemma label_log_new c m log c' m' i s :
  label_log c m log c' m' -> m !! i = None -> m' !! i = Some s ->
  exists b k, L i b /\ s = b +:+ str_of_Z (Z.of_nat k) /\ c <= k < c'.
Proof.
  induction 1 as [|c m oid name log c' m' Hn HL H IH]; intros Hi Hs.
  - congruence.
  - destruct (decide (oid = i)) as [->|Hne].
    + pose proof (label_log_stable _ _ _ _ _ i _ H (lookup_insert_eq _ _ _)) as E.
      rewrite E in Hs. inversion Hs; subst s.
      exists name, c. repeat split; [assumption|lia|].
      apply label_log_counter in H. lia.
    + destruct IH as (b & k & Hb & -> & Hk).
      * rewrite lookup_insert_ne; assumption.
      * exact Hs.
      * exists b, k. repeat split; [assumption|lia|lia].
Qed.

Lemma label_log_distinct c m log c' m' i j si sj :
  label_log c m log c' m' -> i <> j ->
  m !! i = None -> m !! j = None ->
  m' !! i = Some si -> m' !! j = Some sj ->
  exists bi bj ci cj,
    L i bi /\ L j bj /\
    si = bi +:+ str_of_Z (Z.of_nat ci) /\
    sj = bj +:+ str_of_Z (Z.of_nat cj) /\
    ci <> cj /\ c <= ci < c' /\ c <= cj < c'.
Proof.
  induction 1 as [|c m oid name log c' m' Hn HL H IH]; intros Hij Hi Hj Hsi Hsj.
  - congruence.
  - pose proof (label_log_counter _ _ _ _ _ H) as Hc.
    destruct (decide (oid = i)) as [->|Hni]; [|destruct (decide (oid = j)) as [->|Hnj]].
    + pose proof (label_log_stable _ _ _ _ _ i _ H (lookup_insert_eq _ _ _)) as E.
      rewrite E in Hsi. inversion Hsi; subst si.
      destruct (label_log_new _ _ _ _ _ j sj H) as (bj & cj & Hbj & -> & Hcj).
      { rewrite lookup_insert_ne; assumption. }
      { exact Hsj. }
      exists name, bj, c, cj. repeat split; try assumption; lia.
    + pose proof (label_log_stable _ _ _ _ _ j _ H (lookup_insert_eq _ _ _)) as E.
      rewrite E in Hsj. inversion Hsj; subst sj.
      destruct (label_log_new _ _ _ _ _ i si H) as (bi & ci & Hbi & -> & Hci).
      { rewrite lookup_insert_ne; [assumption|congruence]. }
      { exact Hsi. }
      exists bi, name, ci, c. repeat split; try assumption; lia.
    + destruct IH as (bi & bj & ci & cj & Hbi & Hbj & -> & -> & Hne & Hci & Hcj);
        try assumption.
      * rewrite lookup_insert_ne; assumption.
      * rewrite lookup_insert_ne; assumption.
      * exists bi, bj, ci, cj. repeat split; try assumption; lia.
Qed.

End Label_log.

(** ** What every run keeps *)

Section Run_facts.

Context {type X : Type} {collab : Collaborators type}.

Local Abbreviation generator := (generator X).
Local Abbreviation node := (node type).

(** The set of declared temporaries only grows. *)
Lemma run_declared_temps (n : node) (g : generator) v g' :
  visit n g = OK (v, g') -> declared_temps g ⊆ declared_temps g'.
Proof.
  intros H.
  refine (proj1 (proj1 (visit_sound
            (fun g1 g2 : generator => declared_temps g1 ⊆ declared_temps g2)
            (fun _ _ => True) _ _ _ _ _ _ n _ g v g' H))).
  - intros g1. reflexivity.
  - intros g1 g2 g3 H1 H2. etransitivity; eassumption.
  - intros g1 w. reflexivity.
  - intros g1 s. simpl. set_solver.
  - intros g1 oid s. reflexivity.
  - intros g1 oid name _ _. reflexivity.
  - intros oid name _. exact I.
Qed.

(** The labels named during a run are labels of the tree, named one after
    the other from the counter. *)
Lemma run_label_log (n : node) (g : generator) v g' :
  visit n g = OK (v, g') ->
  exists log,
    label_log (fun oid name => In (oid, name) (labels_of n))
              (label_counter g) (label_mangled_name g) log
              (label_counter g') (label_mangled_name g').
Proof.
  intros H.
  refine (proj1 (proj1 (visit_sound
            (fun g1 g2 : generator =>
               exists log,
                 label_log (fun oid name => In (oid, name) (labels_of n))
                           (label_counter g1) (label_mangled_name g1) log
                           (label_counter g2) (label_mangled_name g2))
            (fun oid name => In (oid, name) (labels_of n))
            _ _ _ _ _ _ n _ g v g' H))).
  - intros g1. exists []. constructor.
  - intros g1 g2 g3 [l1 H1] [l2 H2]. exists (l1 ++ l2).
    eapply label_log_app; eassumption.
  - intros g1 w. exists []. constructor.
  - intros g1 s. exists []. constructor.
  - intros g1 oid s. exists []. constructor.
  - intros g1 oid name HL Hn. exists [(oid, name)].
    apply log_cons; [assumption..|]. constructor.
  - intros oid name Hin. exact Hin.
Qed.

(** The cursor of the writer is the same, and so are its two stacks when
    the context keeps them. *)
Lemma run_levels (n : node) (g : generator) v g' :
  visit n g = OK (v, g') ->
  code g' = code g /\
  (context_keeps_levels -> levels (writer g') = levels (writer g)).
Proof.
  intros H.
  pose proof (visit_sound (fun _ _ : generator => True) (fun _ _ => True)
                (fun _ => I) (fun _ _ _ _ _ => I) (fun _ _ => I)
                (fun _ _ => I) (fun _ _ _ => I) (fun _ _ _ _ _ => I)
                n (fun _ _ _ => I) g v g' H) as [[_ Hc] Hl].
  split; assumption.
Qed.

End Run_facts.

(** ** The cleanup traversal *)

(** The trees on which the cleanup traversal meets no absent node: every
    loop it reaches has its three header clauses, and so have the loops in
    the clauses; the body of a loop is not looked at. *)
Fixpoint cleanup_domain {type : Type} (n : node type) : bool :=
  let opt o := match o with Some m => cleanup_domain m | None => false end in
  match n with
  | FunctionNode _ _ _ arguments body =>
      cleanup_domain body && forallb cleanup_domain arguments
  | FunctionArgument variables => forallb cleanup_domain variables
  | StatListNode stats => forallb cleanup_domain stats
  | ForNode init condition step _ _ => opt init && (opt condition && opt step)
  | ReturnNode operand => cleanup_domain operand
  | BinopNode lhs _ rhs => cleanup_domain lhs && cleanup_domain rhs
  | UnopNode _ operand => cleanup_domain operand
  | AssignmentExpr lhs rhs => cleanup_domain lhs && cleanup_domain rhs
  | AssignmentNode operand => cleanup_domain operand
  | CastNode _ operand => cleanup_domain operand
  | DereferenceNode operand => cleanup_domain operand
  | SingleIndexNode lhs rhs => cleanup_domain lhs && cleanup_domain rhs
  | JumpNode label => cleanup_domain label
  | JumpTargetNode label => cleanup_domain label
  | TempNode _ _ | ArrayAttribute _ | VariableNode _ _ | LabelNode _ _
  | ConstantNode _ => true
  end.

Definition child_domain {type : Type} (c : children type) : bool :=
  match c with
  | Child None => false
  | Child (Some m) => cleanup_domain m
  | ChildList l => forallb cleanup_domain l
  end.

(** The nodes handed to [visit] when the children are visited, in order. *)
Definition visited {type : Type} (cs : list (children type))
  : list (option (node type)) :=
  flat_map (fun c => match c with
                     | Child o => [o]
                     | ChildList l => map Some l
                     end) cs.

Section Cleanup_facts.

Context {type X : Type} {collab : Collaborators type}.
Local Open Scope gen_scope.

Local Abbreviation M := (M X).
Local Abbreviation generator := (generator X).
Local Abbreviation node := (node type).

(** [pure_or_fail m b]: [m] returns without touching the state when [b]
    holds, and fails to dispatch otherwise. *)
Definition pure_or_fail {A} (m : M A) (b : bool) : Prop :=
  forall g, if b then exists a, m g = OK (a, g) else m g = Err DispatchFailure.

Lemma pure_ret {A} (a : A) : pure_or_fail (ret a) true.
Proof. intros g. exists a. reflexivity. Qed.

Lemma pure_bind {A B} (m : M A) (k : A -> M B) b1 b2 :
  pure_or_fail m b1 -> (forall a, pure_or_fail (k a) b2) ->
  pure_or_fail (bind m k) (b1 && b2).
Proof.
  intros Hm Hk g. specialize (Hm g). unfold bind. destruct b1; simpl.
  - destruct Hm as [a ->]. apply Hk.
  - rewrite Hm. destruct b2; reflexivity.
Qed.

Lemma pure_mapM {A B} (f : A -> M B) (d : A -> bool) (l : list A) :
  Forall (fun x => pure_or_fail (f x) (d x)) l ->
  pure_or_fail (mapM f l) (forallb d l).
Proof.
  induction 1 as [|x r Hx Hr IH]; simpl.
  - apply pure_ret.
  - apply pure_bind; [exact Hx|]. intros v.
    rewrite <- (andb_true_r (forallb d r)).
    apply pure_bind; [exact IH|]. intros vs. apply pure_ret.
Qed.

Definition cleanup_spec (n : node) : Prop :=
  forall g : generator,
    cleanup_visit n g
    = if cleanup_domain n then OK (VNone, g) else Err DispatchFailure.

Lemma cleanup_self_visit_spec (o : option node) :
  on_child cleanup_spec (Child o) ->
  pure_or_fail (cleanup_self_visit o) (child_domain (Child o)).
Proof.
  destruct o as [m|]; simpl; intros H g.
  - rewrite (H g). destruct (cleanup_domain m); [eexists|]; reflexivity.
  - reflexivity.
Qed.

Lemma cleanup_childlist_spec (c : children type) :
  on_child cleanup_spec c ->
  pure_or_fail (visit_childlist cleanup_self_visit c) (child_domain c).
Proof.
  destruct c as [o|l]; intros H.
  - unfold visit_childlist. rewrite <- (andb_true_r (child_domain (Child o))).
    apply pure_bind; [apply cleanup_self_visit_spec, H|].
    intros v. apply pure_ret.
  - unfold visit_childlist. simpl child_domain.
    rewrite <- (andb_true_r (forallb cleanup_domain l)).
    apply pure_bind; [|intros v; apply pure_ret].
    apply pure_mapM. simpl in H. eapply Forall_impl; [exact H|].
    intros m Hm. apply (cleanup_self_visit_spec (Some m)), Hm.
Qed.

Lemma cleanup_visitchildren_spec (n : node) :
  Forall (on_child cleanup_spec) (child_attrs n) ->
  pure_or_fail (visitchildren cleanup_self_visit n)
               (forallb child_domain (child_attrs n)).
Proof.
  intros H. unfold visitchildren.
  rewrite <- (andb_true_r (forallb child_domain (child_attrs n))).
  apply pure_bind; [|intros v; apply pure_ret].
  apply pure_mapM. eapply Forall_impl; [exact H|].
  intros c Hc. apply cleanup_childlist_spec, Hc.
Qed.

Lemma cleanup_visit_Node_spec (n : node) :
  Forall (on_child cleanup_spec) (child_attrs n) ->
  forall g : generator,
    CodeGenCleanup_visit_Node cleanup_self_visit n g
    = if forallb child_domain (child_attrs n)
      then OK (VNone, g) else Err DispatchFailure.
Proof.
  intros H g. unfold CodeGenCleanup_visit_Node, bind.
  pose proof (cleanup_visitchildren_spec n H g) as Hv.
  destruct (forallb child_domain (child_attrs n)).
  - destruct Hv as [a ->]. reflexivity.
  - rewrite Hv. reflexivity.
Qed.

(** The cleanup traversal returns [None] and leaves the generator as it
    was on the trees of its domain, and fails to dispatch on the others. *)
Lemma cleanup_visit_spec (n : node) : cleanup_spec n.
Proof.
  revert n. apply node_children_ind. intros n IH g.
  rewrite cleanup_visit_unfold.
  destruct n; simpl CodeGenCleanup_dispatch;
    try (rewrite (cleanup_visit_Node_spec _ IH g); simpl;
         rewrite ?andb_true_r; reflexivity).
  inversion IH as [|? ? Hi IH1]; subst.
  inversion IH1 as [|? ? Hc IH2]; subst.
  inversion IH2 as [|? ? Hs IH3]; subst.
  apply cleanup_self_visit_spec in Hi, Hc, Hs.
  unfold CodeGenCleanup_visit_ForNode, bind. simpl cleanup_domain.
  specialize (Hi g). specialize (Hc g). specialize (Hs g). simpl in Hi, Hc, Hs.
  destruct init as [i|]; [|reflexivity].
  destruct (cleanup_domain i); [destruct Hi as [a ->]|rewrite Hi; reflexivity].
  destruct condition as [c|]; [|reflexivity].
  destruct (cleanup_domain c); [destruct Hc as [a' ->]|rewrite Hc; reflexivity].
  destruct step as [s|]; [|reflexivity].
  destruct (cleanup_domain s); [destruct Hs as [a'' ->]|rewrite Hs; reflexivity].
  reflexivity.
Qed.

End Cleanup_facts.

(** ** A test double for the dispatcher

    [spy tag] stands for [self.visit] in a handler: it records the object
    it is called with and the writer as it is at the call, in the attribute
    [extra], and returns [tag o] without touching anything else. *)

Section Spy.

Context {type : Type} {collab : Collaborators type}.
Local Open Scope gen_scope.

Definition calls : Type := list (option (node type) * CodeWriter).

Definition spy (tag : option (node type) -> value type)
  : option (node type) -> M calls (value type) :=
  fun o g => OK (tag o, set_extra (extra g ++ [(o, writer g)]) g).

(** The state after the calls [os], all made on the same writer. *)
Definition record (os : list (option (node type))) (g : generator calls)
  : generator calls :=
  set_extra (extra g ++ map (fun o => (o, writer g)) os) g.

End Spy.

(** ** The steps of loop lowering, one by one *)

Section Loop_steps.

Context {type X : Type} {collab : Collaborators type}.
Local Open Scope gen_scope.

Local Abbreviation M := (M X).
Local Abbreviation generator := (generator X).

Lemma putln_OK s (g : generator) u g' :
  putln s g = OK (u, g') ->
  exists b, insert_before (code g) (Line s) (buffer (writer g)) = Some b /\
            g' = set_writer (set_buffer b (writer g)) g.
Proof.
  unfold putln. intros H. apply bind_OK in H as (g0 & g1 & Hg & H).
  apply get_OK in Hg as [-> ->]. apply putln_at_OK in H. exact H.
Qed.

(** Entering the scope of a loop: two insertion points, one pushed on each
    stack, unless the loop is tiled. *)
Lemma enter_levels_OK (is_tiled : bool) (g : generator) u g' :
  (if negb is_tiled
   then p <- insertion_point ;;
        append_declaration_level p ;;
        q <- insertion_point ;;
        append_loop_level q
   else ret tt) g = OK (u, g') ->
  exists w,
    g' = set_writer w g /\
    text_of (buffer w) = text_of (buffer (writer g)) /\
    levels w =
      if is_tiled then levels (writer g)
      else (declaration_levels (writer g) ++ [fresh (writer g)],
            loop_levels (writer g) ++ [S (fresh (writer g))]).
Proof.
  destruct is_tiled; simpl negb; cbv iota; intros H.
  - apply ret_OK in H as [_ ->]. exists (writer g).
    destruct g; repeat split; reflexivity.
  - apply bind_OK in H as (p & g1 & H1 & H).
    apply insertion_point_OK in H1 as (b1 & Hb1 & -> & ->).
    apply bind_OK in H as (u1 & g2 & H2 & H). apply modify_OK in H2 as ->.
    apply bind_OK in H as (q & g3 & H3 & H).
    apply insertion_point_OK in H3 as (b3 & Hb3 & -> & ->).
    apply modify_OK in H as ->. simpl in Hb3.
    eexists. split; [reflexivity|]. split; [|reflexivity].
    simpl. rewrite (text_of_insert_mark _ _ _ _ Hb3).
    apply (text_of_insert_mark _ _ _ _ Hb1).
Qed.

(** Leaving the scope of a loop: one pop from each stack, unless the loop
    is tiled. *)
Lemma leave_levels_OK (is_tiled : bool) (g : generator) u g' :
  (if negb is_tiled
   then pop_declaration_level ;; pop_loop_level ;; ret tt
   else ret tt) g = OK (u, g') ->
  exists w,
    g' = set_writer w g /\
    buffer w = buffer (writer g) /\
    if is_tiled then levels w = levels (writer g)
    else exists p q,
        levels (writer g)
        = (declaration_levels w ++ [p], loop_levels w ++ [q]).
Proof.
  destruct is_tiled; simpl negb; cbv iota; intros H.
  - apply ret_OK in H as [_ ->]. exists (writer g).
    destruct g; repeat split; reflexivity.
  - apply bind_OK in H as (p & g1 & H1 & H).
    unfold pop_declaration_level in H1.
    destruct (list_pop (declaration_levels (writer g))) as [[d p']|] eqn:Ed;
      [|discriminate].
    inversion H1; subst; clear H1.
    apply bind_OK in H as (q & g2 & H2 & H).
    unfold pop_loop_level in H2. simpl in H2.
    destruct (list_pop (loop_levels (writer g))) as [[l q']|] eqn:El;
      [|discriminate].
    inversion H2; subst; clear H2.
    apply ret_OK in H as [_ ->].
    apply list_pop_Some in Ed, El.
    eexists. split; [reflexivity|]. split; [reflexivity|].
    exists p, q. unfold levels. simpl. rewrite Ed, El. reflexivity.
Qed.

(** Catching, taking the disposal point, cascading and generating the
    disposal code touch the writer only, and not its two stacks when the
    context keeps them. *)
Lemma dispose_OK (eh : option handler) (body : node type) (g : generator) u g' :
  (disposal_point <-
     match eh with
     | Some h =>
         handler_catch_here h ;;
         p <- insertion_point ;;
         handler_cascade h ;;
         ret p
     | None => g <- get ;; ret (code g)
     end ;;
   g <- get ;;
   context_generate_disposal_code (code g) body) g = OK (u, g') ->
  exists w,
    g' = set_writer w g /\
    (context_keeps_levels -> levels w = levels (writer g)).
Proof.
  intros H. apply bind_OK in H as (dp & g1 & H1 & H).
  assert (E1 : exists w1, g1 = set_writer w1 g /\
                 (context_keeps_levels -> levels w1 = levels (writer g))).
  { destruct eh as [h|].
    - apply bind_OK in H1 as (u1 & g2 & H2 & H1). apply modify_OK in H2 as ->.
      apply bind_OK in H1 as (p & g3 & H3 & H1).
      apply insertion_point_OK in H3 as (b & _ & _ & ->).
      apply bind_OK in H1 as (u2 & g4 & H4 & H1). apply modify_OK in H4 as ->.
      apply ret_OK in H1 as [_ ->].
      eexists. split; [reflexivity|]. intros (_ & Fc & Fs & _).
      simpl. rewrite Fs. simpl. unfold levels at 1. simpl. apply Fc.
    - apply bind_OK in H1 as (g0 & g2 & H2 & H1).
      apply get_OK in H2 as [-> ->]. apply ret_OK in H1 as [_ ->].
      exists (writer g). destruct g; split; reflexivity. }
  destruct E1 as (w1 & -> & F1).
  apply bind_OK in H as (g0 & g2 & H2 & H). apply get_OK in H2 as [-> ->].
  apply modify_OK in H as ->.
  eexists. split; [reflexivity|]. intros F. simpl.
  destruct F as (Fe & Fc & Fs & Fd). rewrite Fd. apply F1. repeat split; assumption.
Qed.

Lemma dispose_then_OK {B} (eh : option handler) (body : node type)
  (K : M B) (g : generator) v g' :
  (disposal_point <-
     match eh with
     | Some h =>
         handler_catch_here h ;;
         p <- insertion_point ;;
         handler_cascade h ;;
         ret p
     | None => g <- get ;; ret (code g)
     end ;;
   g <- get ;;
   context_generate_disposal_code (code g) body ;;
   K) g = OK (v, g') ->
  exists w,
    (context_keeps_levels -> levels w = levels (writer g)) /\
    K (set_writer w g) = OK (v, g').
Proof.
  intros H. apply bind_OK in H as (dp & g1 & H1 & H).
  apply bind_OK in H as (g0 & g2 & H2 & H). apply get_OK in H2 as [-> ->].
  apply bind_OK in H as (u & g3 & H3 & H).
  destruct (dispose_OK eh body g u g3) as (w & -> & F).
  { unfold bind at 1. rewrite H1. unfold bind, get. exact H3. }
  exists w. split; assumption.
Qed.

Lemma error_handler_OK (body : node type) (g : generator) eh g' :
  (if may_error body
   then h <- context_error_handler ;; ret (Some h)
   else ret None) g = OK (eh, g') ->
  exists w,
    g' = set_writer w g /\
    (context_keeps_levels -> levels w = levels (writer g)).
Proof.
  destruct (may_error body); intros H.
  - apply bind_OK in H as (h & g1 & H1 & H). apply ret_OK in H as [_ ->].
    unfold context_error_handler in H1.
    destruct (error_handler (code g) (writer g)) as [h' w] eqn:E.
    inversion H1; subst; clear H1.
    exists w. split; [reflexivity|]. intros (Fe & _).
    specialize (Fe (code g) (writer g)). rewrite E in Fe. exact Fe.
  - apply ret_OK in H as [_ ->]. exists (writer g).
    destruct g; split; reflexivity.
Qed.

Lemma percent_for (a b c : value type) :
  percent "for (%s; %s; %s) {" [a; b; c]
  = OK ("for (" +:+ str a +:+ "; " +:+ str b +:+ "; " +:+ str c +:+ ") {").
Proof. reflexivity. Qed.

End Loop_steps.

(** ** Handlers run on the test double *)

Section Spy_facts.

Context {type : Type} {collab : Collaborators type}.
Local Open Scope gen_scope.

Local Abbreviation generator := (generator (@calls type)).
Local Abbreviation node := (node type).

Variable tag : option node -> value type.

Lemma record_nil (g : generator) : record [] g = g.
Proof.
  destruct g. unfold record, set_extra. simpl. rewrite app_nil_r. reflexivity.
Qed.

Lemma record_cons o os (g : generator) :
  record os (set_extra (extra g ++ [(o, writer g)]) g) = record (o :: os) g.
Proof.
  unfold record, set_extra. simpl. rewrite <- app_assoc. reflexivity.
Qed.

Lemma record_app os1 os2 (g : generator) :
  record os2 (record os1 g) = record (os1 ++ os2) g.
Proof.
  unfold record, set_extra. simpl. rewrite map_app, app_assoc. reflexivity.
Qed.

Lemma visited_cons (c : children type) (cs : list (children type)) :
  visited (c :: cs) = visited [c] ++ visited cs.
Proof. unfold visited. simpl. rewrite app_nil_r. reflexivity. Qed.

Lemma spy_mapM (l : list node) (g : generator) :
  mapM (fun n => spy tag (Some n)) l g
  = OK (map (fun n => tag (Some n)) l, record (map Some l) g).
Proof.
  revert g. induction l as [|x r IH]; intros g.
  - simpl. rewrite record_nil. reflexivity.
  - simpl. unfold bind at 1. unfold spy at 1.
    unfold bind at 1. rewrite IH. unfold ret. rewrite record_cons. reflexivity.
Qed.

Lemma spy_visit_childlist (c : children type) (g : generator) :
  exists r,
    visit_childlist (spy tag) c g = OK (r, record (visited [c]) g) /\
    match r with
    | Single v => [v]
    | Multiple l => l
    end = map tag (visited [c]).
Proof.
  destruct c as [o|l]; simpl visited; rewrite ?app_nil_r.
  - exists (Single (tag o)). split; reflexivity.
  - exists (Multiple (map (fun n => tag (Some n)) l)). split.
    + unfold visit_childlist, bind. rewrite spy_mapM. reflexivity.
    + rewrite map_map. reflexivity.
Qed.

Lemma spy_results_from (cs : list (children type)) acc (g : generator) :
  results_from (spy tag) cs acc g
  = OK (acc ++ map tag (visited cs), record (visited cs) g).
Proof.
  revert acc g. induction cs as [|c r IH]; intros acc g.
  - simpl. rewrite app_nil_r, record_nil. reflexivity.
  - destruct (spy_visit_childlist c g) as (res & Hres & Hvals).
    simpl results_from. unfold bind. rewrite Hres.
    rewrite (visited_cons c r).
    rewrite map_app, <- record_app, app_assoc, <- Hvals.
    destruct res; apply IH.
Qed.

Lemma spy_mapM_childlist (cs : list (children type)) (g : generator) :
  exists rs,
    mapM (visit_childlist (spy tag)) cs g = OK (rs, record (visited cs) g).
Proof.
  revert g. induction cs as [|c r IH]; intros g.
  - exists []. simpl. rewrite record_nil. reflexivity.
  - destruct (spy_visit_childlist c g) as (res & Hres & _).
    destruct (IH (record (visited [c]) g)) as (rs & Hrs).
    exists (res :: rs). simpl mapM. unfold bind. rewrite Hres.
    fold (mapM (visit_childlist (spy tag))). rewrite Hrs.
    rewrite (visited_cons c r), record_app. reflexivity.
Qed.

(** The generic handler of the cleanup traversal calls the dispatcher on
    every child, in order, and does nothing else. *)
Lemma spy_cleanup_visit_Node (n : node) (g : generator) :
  CodeGenCleanup_visit_Node (spy tag) n g
  = OK (VNone, record (visited (child_attrs n)) g).
Proof.
  unfold CodeGenCleanup_visit_Node, visitchildren, bind.
  destruct (spy_mapM_childlist (child_attrs n) g) as (rs & ->). reflexivity.
Qed.

(** Loop lowering on the test double: the five calls of the dispatcher,
    the writer each sees, and the two stacks at the end. *)
Lemma spy_visit_ForNode init condition step body is_tiled (g : generator) v g' :
  visit_ForNode (spy tag) init condition step body is_tiled g = OK (v, g') ->
  exists w1 b1 w4,
    (context_keeps_levels -> levels w1 = levels (writer g)) /\
    insert_before (code g)
      (Line ("for (" +:+ str (tag init) +:+ "; " +:+ str (tag condition)
             +:+ "; " +:+ str (tag step) +:+ ") {"))
      (buffer w1) = Some b1 /\
    text_of (buffer w4) = text_of b1 /\
    levels w4 =
      (if is_tiled then levels w1
       else (declaration_levels w1 ++ [fresh w1],
             loop_levels w1 ++ [S (fresh w1)])) /\
    extra g' = extra g ++ [(init, w1); (condition, w1); (step, w1);
                           (init, w4); (Some body, w4)] /\
    (context_keeps_levels -> levels (writer g') = levels (writer g)).
Proof.
  intros H. unfold visit_ForNode in H.
  apply bind_OK in H as (eh & g1 & H1 & H).
  apply error_handler_OK in H1 as (w1 & -> & F1).
  apply bind_OK in H as (exprs & g2 & H2 & H).
  unfold results in H2. rewrite spy_results_from in H2.
  inversion H2; subst exprs g2; clear H2. simpl visited in H. simpl map in H.
  apply bind_OK in H as (line & g3 & H3 & H).
  apply lift_OK in H3 as [H3 ->]. rewrite percent_for in H3.
  inversion H3; subst line; clear H3.
  apply bind_OK in H as (u1 & g4 & H4 & H).
  apply putln_OK in H4 as (b1 & Hb1 & ->). simpl in Hb1.
  apply bind_OK in H as (u2 & g5 & H5 & H).
  apply enter_levels_OK in H5 as (w4 & -> & T4 & L4).
  apply bind_OK in H as (v1 & g6 & H6 & H).
  unfold spy in H6. inversion H6; subst v1 g6; clear H6.
  apply bind_OK in H as (v2 & g7 & H7 & H).
  unfold spy in H7. inversion H7; subst v2 g7; clear H7.
  apply dispose_then_OK in H as (w8 & F8 & H).
  apply bind_OK in H as (u4 & g9 & H9 & H).
  apply leave_levels_OK in H9 as (w9 & -> & _ & L9).
  apply bind_OK in H as (u5 & g10 & H10 & H).
  apply putln_OK in H10 as (b10 & _ & ->).
  apply ret_OK in H as [_ ->].
  exists w1, b1, w4. simpl in *.
  split; [exact F1|]. split; [exact Hb1|]. split; [rewrite T4; reflexivity|].
  split; [exact L4|]. split.
  - rewrite <- !app_assoc. reflexivity.
  - intros F. specialize (F1 F). specialize (F8 F).
    unfold levels at 1. simpl. fold (levels w9).
    destruct is_tiled.
    + rewrite L9, F8, L4. exact F1.
    + destruct L9 as (p & q & L9). rewrite F8, L4 in L9.
      unfold levels in *. inversion L9 as [[Ed El]]. inversion F1 as [[Fd Fl]].
      apply app_inj_tail in Ed as [Ed _]. apply app_inj_tail in El as [El _].
      congruence.
Qed.


End Spy_facts.

(** ** Concrete trees and states *)

(** [for (i = 0; (i < n); i = (i + 1)) { t = i; }], its body an assignment,
    which the concrete back end says may raise. *)
Definition guarded_loop : node ctype :=
  ForNode
    (Some (AssignmentExpr (VariableNode c_int "i") (ConstantNode (IntConst 0))))
    (Some (BinopNode (VariableNode c_int "i") "<" (VariableNode c_int "n")))
    (Some (AssignmentExpr (VariableNode c_int "i")
             (BinopNode (VariableNode c_int "i") "+" (ConstantNode (IntConst 1)))))
    (AssignmentNode (AssignmentExpr (VariableNode c_int "t") (VariableNode c_int "i")))
    false.

(** Eleven jump targets; the first label is called [L1], the last [L]. *)
Definition colliding_labels : node ctype :=
  StatListNode
    (map (fun l : nat * string => JumpTargetNode (LabelNode (fst l) (snd l)))
       [(0, "L1"); (1, "a"); (2, "a"); (3, "a"); (4, "a"); (5, "a");
        (6, "a"); (7, "a"); (8, "a"); (9, "a"); (10, "L")]).

(** A jump to a label ahead of its target, and a second label. *)
Definition forward_jump : node ctype :=
  StatListNode
    [JumpNode (LabelNode 1 "L"); JumpTargetNode (LabelNode 1 "L");
     JumpTargetNode (LabelNode 2 "L")].

(** A generator inside a function: the declaration point [1] was taken at
    the top of the body. *)
Definition in_function : generator unit :=
  mkGen 0 (mkWriter [Line "static int f() {"; Mark 1; Mark 0]
                    ["static int f();"] 2 [] [] (Some 1))
        ∅ 0 ∅ ∅ tt.

(** The claim that distinct labels named in a run never share a name. *)
Definition label_names_always_distinct : Prop :=
  forall (n : node ctype) v (g' : generator unit) i j si sj,
    run c_backend n = OK (v, g') -> i <> j ->
    label_mangled_name g' !! i = Some si ->
    label_mangled_name g' !! j = Some sj ->
    si <> sj.

(** * The properties of the generator *)

Section Properties.

Context {type X : Type} {collab : Collaborators type}.
Local Open Scope gen_scope.

Local Abbreviation node := (node type).

(** A label renders to its memoized name, assigned at this visit if it had
    none; the writer is not touched. *)
Lemma visit_label (oid : nat) (name : string) (g : generator X) :
  exists s g1,
    visit (LabelNode oid name) g = OK (VStr s, g1) /\
    label_mangled_name g1 !! oid = Some s /\
    writer g1 = writer g /\ code g1 = code g /\
    (forall s0, label_mangled_name g !! oid = Some s0 -> s = s0 /\ g1 = g) /\
    (label_mangled_name g !! oid = None ->
     s = name +:+ str_of_Z (Z.of_nat (label_counter g)) /\
     g1 = assign_label oid s g).
Proof.
  rewrite visit_unfold. simpl. unfold visit_LabelNode, bind, get.
  destruct (label_mangled_name g !! oid) as [s|] eqn:E.
  - exists s, g. repeat split; try assumption; try congruence.
  - unfold lift. rewrite percent_label. unfold modify, ret.
    eexists _, _. split; [reflexivity|]. simpl.
    split; [apply lookup_insert_eq|]. repeat split; try discriminate.
Qed.

(** C2: a temporary whose mangled name is already declared is rendered
    without writing anything; the first visit writes exactly one line,
    [<type> <name>;], immediately before the marker of the declaration point
    of the function, wherever the cursor of the generator is; every visit of
    a temporary with that mangled name returns the same rendered name, and a
    name once declared stays declared for the rest of the run. *)
Theorem C2_temp_declared_once (ty : type) (name : string) (g : generator X) :
  (mangle name ∈ declared_temps g ->
   visit (TempNode ty name) g = OK (VStr (mangle name), g)) /\
  (mangle name ∉ declared_temps g ->
   forall dp,
     declaration_point (writer g) = Some dp ->
     In (Mark dp) (buffer (writer g)) ->
     exists pre post,
       buffer (writer g) = pre ++ Mark dp :: post /\
       ~ In (Mark dp) pre /\
       visit (TempNode ty name) g
       = OK (VStr (mangle name),
             set_writer
               (set_buffer
                  (pre ++ Line (declare_type ty +:+ " " +:+ mangle name +:+ ";")
                       :: Mark dp :: post)
                  (writer g))
               (add_declared_temp (mangle name) g))) /\
  (forall (ty' : type) (name' : string) v g',
     mangle name' = mangle name ->
     visit (TempNode ty' name') g = OK (v, g') ->
     v = VStr (mangle name) /\ mangle name ∈ declared_temps g') /\
  (forall (n : node) v g',
     visit n g = OK (v, g') -> declared_temps g ⊆ declared_temps g').
Proof.
  split; [|split; [|split]].
  - intros Hin. rewrite visit_unfold. simpl.
    unfold visit_TempNode, bind, get.
    destruct (decide (mangle name ∈ declared_temps g)); [reflexivity|contradiction].
  - intros Hnin dp Hdp Hmark.
    destruct (insert_before_In dp
                (Line (declare_type ty +:+ " " +:+ mangle name +:+ ";"))
                _ Hmark) as [b' Hb'].
    destruct (insert_before_Some _ _ _ _ Hb') as (pre & post & E & -> & Hpre).
    exists pre, post. split; [exact E|]. split; [exact Hpre|].
    rewrite visit_unfold. simpl. unfold visit_TempNode, bind, get.
    destruct (decide (mangle name ∈ declared_temps g)); [contradiction|].
    unfold modify. simpl. rewrite Hdp. unfold lift.
    change (";" +:+ "") with ";". unfold putln_at, writer_putln. simpl.
    rewrite Hb'. reflexivity.
  - intros ty' name' v g' Hname H. rewrite visit_unfold in H. simpl in H.
    unfold visit_TempNode in H. rewrite Hname in H.
    apply bind_OK in H as (g0 & g1 & Hg & H). apply get_OK in Hg as [-> ->].
    destruct (decide (mangle name ∈ declared_temps g)) as [Hin|Hnin].
    + apply ret_OK in H as [-> ->]. split; [reflexivity|exact Hin].
    + apply bind_OK in H as (u & g1 & Hm & H). apply modify_OK in Hm as ->.
      apply bind_OK in H as (g0 & g2 & Hg & H). apply get_OK in Hg as [-> ->].
      simpl in H. destruct (declaration_point (writer g)); [|discriminate].
      apply bind_OK in H as (line & g3 & Hl & H). apply lift_OK in Hl as [_ ->].
      apply bind_OK in H as (u' & g4 & Hp & H).
      apply putln_at_OK in Hp as (b & _ & ->). apply ret_OK in H as [-> ->].
      split; [reflexivity|]. simpl. set_solver.
  - intros n v g' H. eapply run_declared_temps, H.
Qed.

(** C3: a label that has a mangled name renders to it and nothing changes;
    one that has none is given its base name followed by the counter, on
    that visit only; no traversal changes a name once assigned; and a jump
    visited first names the label, writes [goto <name>;], and every later
    visit of the label returns that name. *)
Theorem C3_label_name_memoized (oid : nat) (name : string) (g : generator X) :
  (forall s, label_mangled_name g !! oid = Some s ->
     visit (LabelNode oid name) g = OK (VStr s, g)) /\
  (label_mangled_name g !! oid = None ->
     visit (LabelNode oid name) g
     = OK (VStr (name +:+ str_of_Z (Z.of_nat (label_counter g))),
           assign_label oid
             (name +:+ str_of_Z (Z.of_nat (label_counter g))) g)) /\
  (forall (n : node) v g' s,
     visit n g = OK (v, g') ->
     label_mangled_name g !! oid = Some s ->
     label_mangled_name g' !! oid = Some s) /\
  (forall v g',
     visit (JumpNode (LabelNode oid name)) g = OK (v, g') ->
     exists s,
       label_mangled_name g' !! oid = Some s /\
       insert_before (code g) (Line ("goto " +:+ s +:+ ";"))
         (buffer (writer g)) = Some (buffer (writer g')) /\
       visit (LabelNode oid name) g' = OK (VStr s, g') /\
       forall (n : node) v' g'',
         visit n g' = OK (v', g'') ->
         visit (LabelNode oid name) g'' = OK (VStr s, g'')).
Proof.
  assert (Hmemo : forall (g0 : generator X) s,
             label_mangled_name g0 !! oid = Some s ->
             visit (LabelNode oid name) g0 = OK (VStr s, g0)).
  { intros g0 s Hs. rewrite visit_unfold. simpl.
    unfold visit_LabelNode, bind, get. rewrite Hs. reflexivity. }
  assert (Hstable : forall (n : node) (g0 : generator X) v g' s,
             visit n g0 = OK (v, g') ->
             label_mangled_name g0 !! oid = Some s ->
             label_mangled_name g' !! oid = Some s).
  { intros n g0 v g' s H Hs. destruct (run_label_log n g0 v g' H) as [log Hlog].
    eapply label_log_stable; eassumption. }
  split; [|split; [|split]].
  - intros s Hs. apply Hmemo, Hs.
  - intros Hn. destruct (visit_label oid name g) as (s & g1 & H & _ & _ & _ & _ & Hnew).
    destruct (Hnew Hn) as [-> ->]. exact H.
  - intros n v g' s. apply Hstable.
  - intros v g' H. rewrite visit_unfold in H. simpl in H.
    unfold visit_JumpNode, results in H. simpl results_from in H.
    destruct (visit_label oid name g) as (s & g1 & Hl & Hs & Hw & Hc & _ & _).
    apply bind_OK in H as (exprs & g2 & H2 & H).
    apply bind_OK in H2 as (r & g3 & H3 & H2).
    apply bind_OK in H3 as (v3 & g4 & H4 & H3).
    change (visit (LabelNode oid name) g = OK (v3, g4)) in H4.
    rewrite Hl in H4. inversion H4; subst v3 g4; clear H4.
    apply ret_OK in H3 as [-> ->]. apply ret_OK in H2 as [-> ->].
    simpl in H. apply bind_OK in H as (line & g5 & H5 & H).
    apply lift_OK in H5 as [H5 ->].
    change (OK ("goto " +:+ s +:+ ";") = OK line) in H5.
    inversion H5; subst line; clear H5.
    apply bind_OK in H as (u & g6 & H6 & H).
    apply putln_OK in H6 as (b & Hb & ->). apply ret_OK in H as [_ ->].
    rewrite Hw, Hc in Hb.
    exists s. split; [exact Hs|]. split; [exact Hb|].
    split; [apply Hmemo; exact Hs|].
    intros n v' g'' Hn. apply Hmemo. eapply Hstable; [exact Hn|exact Hs].
Qed.

(** Two distinct label nodes that had no name before a run and have one
    after it are label nodes of the tree, and each name is the base
    name followed by a counter value of its own; so the two names differ
    whenever neither base name ends in a decimal digit, and whenever the two
    base names have the same length. *)
Theorem label_names_differ_by_counter (n : node) (g : generator X) v g' i j si sj :
  visit n g = OK (v, g') -> i <> j ->
  label_mangled_name g !! i = None -> label_mangled_name g !! j = None ->
  label_mangled_name g' !! i = Some si ->
  label_mangled_name g' !! j = Some sj ->
  exists bi bj ci cj,
    In (i, bi) (labels_of n) /\ In (j, bj) (labels_of n) /\
    si = bi +:+ str_of_Z (Z.of_nat ci) /\
    sj = bj +:+ str_of_Z (Z.of_nat cj) /\
    ci <> cj /\
    label_counter g <= ci < label_counter g' /\
    label_counter g <= cj < label_counter g' /\
    (ends_in_digit bi = false -> ends_in_digit bj = false -> si <> sj) /\
    (String.length bi = String.length bj -> si <> sj).
Proof.
  intros H Hij Hi Hj Hsi Hsj.
  destruct (run_label_log n g v g' H) as [log Hlog].
  destruct (label_log_distinct _ _ _ _ _ _ i j si sj Hlog Hij Hi Hj Hsi Hsj)
    as (bi & bj & ci & cj & Hbi & Hbj & -> & -> & Hne & Hci & Hcj).
  assert (Hnum : str_of_Z (Z.of_nat ci) <> str_of_Z (Z.of_nat cj)).
  { intros E. apply str_of_Z_inj in E. lia. }
  exists bi, bj, ci, cj. repeat split; try assumption; try lia.
  - intros Di Dj E. apply Hnum.
    eapply numeral_suffix_unique; [exact Di|exact Dj| | |exact E];
      apply str_of_Z_digits.
  - intros Hlen E. apply Hnum. eapply equal_length_suffix; eassumption.
Qed.


(** C6: with a mangling that leaves [f] and [x] alone and a context that
    renders the argument type as [int], the function [f] with the argument
    [x] and the body [return x + 1] lowers, on a fresh writer, to the
    prototype [static int f(int x);] in the prototype stream and the lines
    [static int f(int x) {], [return (x + 1);], [}] in the main buffer; the
    final output puts the prototype first. *)
Theorem C6_function_round_trip (int_t : type) (oid : nat) (x : X)
  (Hf : mangle "f" = "f") (Hx : mangle "x" = "x")
  (Hint : declare_type int_t = "int") :
  exists v g',
    visit (FunctionNode oid "f" "" [FunctionArgument [VariableNode int_t "x"]]
             (ReturnNode (BinopNode (VariableNode int_t "x") "+"
                            (ConstantNode (IntConst 1)))))
          (new_generator 0 new_writer x) = OK (v, g') /\
    proto_code (writer g') = ["static int f(int x);"] /\
    text_of (buffer (writer g'))
    = ["static int f(int x) {"; "return (x + 1);"; "}"] /\
    getvalue (writer g')
    = ["static int f(int x);"; "static int f(int x) {"; "return (x + 1);"; "}"].
Proof.
  eexists _, _. split.
  - rewrite visit_unfold.
    cbv - [mangle declare_type insert empty union singleton].
    rewrite Hf, Hx, Hint.
    cbv - [mangle declare_type insert empty union singleton].
    reflexivity.
  - cbv - [insert empty union singleton]. repeat split.
Qed.

(** C7: the traversal lowers a loop with [visit_ForNode], and that handler
    calls the dispatcher five times, in this order: [init], [condition] and
    [step], whose results make the line [for (<init>; <condition>; <step>) {];
    then [init] a second time and, right after it, the body, both with that
    line already in the buffer. *)
Theorem C7_init_visited_twice (init condition step : option node)
  (body : node) (is_tiled : bool) :
  (forall g : generator X,
     visit (ForNode init condition step body is_tiled) g
     = visit_ForNode self_visit init condition step body is_tiled g) /\
  (forall tag (g : generator calls) v g',
     visit_ForNode (spy tag) init condition step body is_tiled g = OK (v, g') ->
     exists w1 b1 w4,
       extra g' = extra g ++ [(init, w1); (condition, w1); (step, w1);
                              (init, w4); (Some body, w4)] /\
       insert_before (code g)
         (Line ("for (" +:+ str (tag init) +:+ "; " +:+ str (tag condition)
                +:+ "; " +:+ str (tag step) +:+ ") {"))
         (buffer w1) = Some b1 /\
       text_of (buffer w4) = text_of b1).
Proof.
  split.
  - intros g. rewrite visit_unfold. reflexivity.
  - intros tag g v g' H.
    destruct (spy_visit_ForNode tag _ _ _ _ _ g v g' H)
      as (w1 & b1 & w4 & _ & Hb & Ht & _ & He & _).
    exists w1, b1, w4. repeat split; assumption.
Qed.

(** C8: on a loop the cleanup traversal calls the dispatcher on [init],
    [condition] and [step] and on nothing else, so its result does not
    depend on the body; on every other kind of node it calls the dispatcher
    on every child, in order; and a cleanup traversal that returns leaves
    the generator, the writer included, as it was. *)
Theorem C8_cleanup_skips_body (init condition step : option node)
  (body : node) (is_tiled : bool) :
  (forall tag (g : generator calls),
     CodeGenCleanup_visit_ForNode (spy tag) init condition step body is_tiled g
     = OK (VNone, record [init; condition; step] g)) /\
  (forall (body' : node) (is_tiled' : bool) (g : generator X),
     cleanup_visit (ForNode init condition step body is_tiled) g
     = cleanup_visit (ForNode init condition step body' is_tiled') g) /\
  (forall tag (n : node) (g : generator calls),
     (forall i c s b t, n <> ForNode i c s b t) ->
     CodeGenCleanup_dispatch (spy tag) n g
     = OK (VNone, record (visited (child_attrs n)) g)) /\
  (forall (n : node) (g : generator X) v g',
     cleanup_visit n g = OK (v, g') -> v = VNone /\ g' = g).
Proof.
  split; [|split; [|split]].
  - intros tag g. unfold CodeGenCleanup_visit_ForNode, bind, spy, ret, record,
      set_extra. simpl. rewrite <- !app_assoc. reflexivity.
  - intros body' is_tiled' g. rewrite !cleanup_visit_unfold. reflexivity.
  - intros tag n g Hn.
    destruct n; try apply spy_cleanup_visit_Node.
    exfalso. eapply Hn. reflexivity.
  - intros n g v g' H. rewrite (cleanup_visit_spec n g) in H.
    destruct (cleanup_domain n); [|discriminate].
    inversion H. split; reflexivity.
Qed.

(** C9: a variable renders to the mangled form of its name and an array
    attribute to its name as it is, neither touching the generator; so the
    two render differently for a name the mangling changes. *)
Theorem C9_variable_mangled_attribute_verbatim (ty : type) (name : string)
  (g : generator X) :
  visit (VariableNode ty name) g = OK (VStr (mangle name), g) /\
  visit (ArrayAttribute name) g = OK (VStr name, g) /\
  (mangle name <> name ->
   forall v1 g1 v2 g2,
     visit (VariableNode ty name) g = OK (v1, g1) ->
     visit (ArrayAttribute name) g = OK (v2, g2) ->
     str v1 <> str v2).
Proof.
  split; [reflexivity|]. split; [reflexivity|].
  intros Hne v1 g1 v2 g2 H1 H2.
  inversion H1; subst. inversion H2; subst. exact Hne.
Qed.

(** C10: the loop handler of the cleanup traversal hands its three header
    clauses to the dispatcher as they are.  With the three clauses present
    it is the three visits in a row, and it returns when the clauses lie in
    the domain of the traversal; with a clause absent it fails to dispatch,
    where the wrapper [visitchild] would have returned [None]. *)
Theorem C10_cleanup_loop_needs_header (body : node) (is_tiled : bool)
  (g : generator X) :
  (forall i c s,
     cleanup_visit (ForNode (Some i) (Some c) (Some s) body is_tiled) g
     = (cleanup_visit i ;; cleanup_visit c ;; cleanup_visit s ;; ret VNone) g) /\
  (forall i c s,
     cleanup_domain i = true -> cleanup_domain c = true ->
     cleanup_domain s = true ->
     cleanup_visit (ForNode (Some i) (Some c) (Some s) body is_tiled) g
     = OK (VNone, g)) /\
  (forall init condition step,
     init = None \/ condition = None \/ step = None ->
     cleanup_visit (ForNode init condition step body is_tiled) g
     = Err DispatchFailure) /\
  (forall self : option node -> M X (value type),
     visitchild self None g = OK (VNone, g)).
Proof.
  split; [|split; [|split]].
  - intros i c s. rewrite cleanup_visit_unfold. reflexivity.
  - intros i c s Hi Hc Hs. rewrite (cleanup_visit_spec _ g). simpl.
    rewrite Hi, Hc, Hs. reflexivity.
  - intros init condition step H. rewrite (cleanup_visit_spec _ g). simpl.
    destruct H as [->|[->| ->]]; [reflexivity| |].
    + destruct init as [i|]; [|reflexivity].
      destruct (cleanup_domain i); reflexivity.
    + destruct init as [i|]; [|reflexivity].
      destruct (cleanup_domain i); [|reflexivity].
      destruct condition as [c|]; [|reflexivity].
      destruct (cleanup_domain c); reflexivity.
  - intros self. reflexivity.
Qed.

End Properties.

(** * The properties on the concrete back end *)

Lemma c_backend_keeps_levels : context_keeps_levels (collab:=c_backend).
Proof.
  assert (H : forall s c w, levels (write_line s c w) = levels w).
  { intros s c w. unfold write_line, writer_putln.
    destruct (insert_before c (Line s) (buffer w)); reflexivity. }
  repeat split; intros; simpl; try apply H; reflexivity.
Qed.

(** C1: in the loop [guarded_loop], whose body may raise, the disposal
    point (the marker [3]) is taken between the catch point and the cascade
    point, but the disposal code is not written there: the context is handed
    the writer of the generator, so [dispose;] comes after [cascade;] and
    nothing stands at the disposal point. *)
Theorem C1_disposal_written_after_cascade :
  may_error (Collaborators:=c_backend)
    (AssignmentNode (AssignmentExpr (VariableNode c_int "t")
                                    (VariableNode c_int "i"))) = true /\
  exists v g',
    run c_backend guarded_loop = OK (v, g') /\
    buffer (writer g')
    = [Line "for (i = 0; (i < n); i = (i + 1)) {"; Mark 1; Mark 2;
       Line "t = i;"; Line "catch:"; Mark 3; Line "cascade;";
       Line "dispose;"; Line "}"; Mark 0].
Proof.
  split; [reflexivity|]. eexists _, _. split; vm_compute; reflexivity.
Qed.

(** C4: the counter is what should make the names unique, and it does
    not, the name being the base name and the counter with nothing between
    them.  In [colliding_labels] the first label, [L1], is named with the
    counter [0] and the last, [L], with the counter [10]: both are named
    [L10], the output has the line [L10:] twice, and the claim fails. *)
Theorem C4_label_names_collide :
  (exists v g',
     run c_backend colliding_labels = OK (v, g') /\
     label_mangled_name g' !! 0 = Some "L10" /\
     label_mangled_name g' !! 10 = Some "L10" /\
     label_counter g' = 11 /\
     text_of (buffer (writer g'))
     = ["L10:"; "a1:"; "a2:"; "a3:"; "a4:"; "a5:"; "a6:"; "a7:"; "a8:";
        "a9:"; "L10:"]) /\
  ~ label_names_always_distinct.
Proof.
  destruct (run c_backend colliding_labels) as [[v g']|e] eqn:E;
    [|vm_compute in E; discriminate E].
  assert (H0 : label_mangled_name g' !! 0 = Some "L10")
    by (vm_compute in E; inversion E; vm_compute; reflexivity).
  assert (H10 : label_mangled_name g' !! 10 = Some "L10")
    by (vm_compute in E; inversion E; vm_compute; reflexivity).
  split.
  - exists v, g'. split; [reflexivity|]. split; [exact H0|].
    split; [exact H10|].
    vm_compute in E; inversion E; split; vm_compute; reflexivity.
  - intros H.
    refine (H colliding_labels v g' 0 10 "L10" "L10" E _ H0 H10 eq_refl). lia.
Qed.

Lemma C2_temp_declared_once_witness :
  exists g1,
    visit (collab:=c_backend) (TempNode c_int "t") in_function
    = OK (VStr "t", g1) /\
    visit (collab:=c_backend) (TempNode c_double "t") g1 = OK (VStr "t", g1).
Proof.
  destruct (C2_temp_declared_once (collab:=c_backend) c_int "t" in_function)
    as (_ & Hfirst & _ & _).
  assert (Hnew : "t" ∉ declared_temps in_function) by (simpl; set_solver).
  destruct (Hfirst Hnew 1 eq_refl (or_intror (or_introl eq_refl)))
    as (pre & post & _ & _ & Hv).
  eexists. split; [exact Hv|].
  apply (C2_temp_declared_once (collab:=c_backend) c_double "t").
  simpl. set_solver.
Defined.

Lemma C3_label_name_memoized_witness :
  exists g1,
    visit (collab:=c_backend) (LabelNode 1 "L") (new_generator 0 new_writer tt)
    = OK (VStr "L0", g1) /\
    visit (collab:=c_backend) (LabelNode 1 "L") g1 = OK (VStr "L0", g1).
Proof.
  destruct (C3_label_name_memoized (collab:=c_backend) 1 "L"
              (new_generator 0 new_writer tt)) as (_ & Hnew & _ & _).
  eexists. split; [exact (Hnew eq_refl)|].
  apply (C3_label_name_memoized (collab:=c_backend) 1 "L").
  apply lookup_insert_eq.
Defined.

Lemma label_names_differ_by_counter_witness :
  exists v g',
    run c_backend forward_jump = OK (v, g') /\
    exists bi bj ci cj,
      In (1, bi) (labels_of forward_jump) /\
      In (2, bj) (labels_of forward_jump) /\
      "L0" = bi +:+ str_of_Z (Z.of_nat ci) /\
      "L1" = bj +:+ str_of_Z (Z.of_nat cj) /\
      ci <> cj /\
      0 <= ci < label_counter g' /\ 0 <= cj < label_counter g' /\
      (ends_in_digit bi = false -> ends_in_digit bj = false -> "L0" <> "L1") /\
      (String.length bi = String.length bj -> "L0" <> "L1").
Proof.
  destruct (run c_backend forward_jump) as [[v g']|e] eqn:E;
    [|vm_compute in E; discriminate E].
  exists v, g'. split; [reflexivity|].
  apply (label_names_differ_by_counter (collab:=c_backend) forward_jump
           (new_generator 0 new_writer tt) v g' 1 2 "L0" "L1" E);
    [lia|reflexivity|reflexivity| |];
    vm_compute in E; inversion E; vm_compute; reflexivity.
Defined.


Lemma C6_function_round_trip_witness :
  exists v g',
    visit (collab:=c_backend)
      (FunctionNode 0 "f" "" [FunctionArgument [VariableNode c_int "x"]]
         (ReturnNode (BinopNode (VariableNode c_int "x") "+"
                        (ConstantNode (IntConst 1)))))
      (new_generator 0 new_writer tt) = OK (v, g') /\
    proto_code (writer g') = ["static int f(int x);"] /\
    text_of (buffer (writer g'))
    = ["static int f(int x) {"; "return (x + 1);"; "}"] /\
    getvalue (writer g')
    = ["static int f(int x);"; "static int f(int x) {"; "return (x + 1);"; "}"].
Proof.
  exact (C6_function_round_trip (collab:=c_backend) c_int 0 tt
           eq_refl eq_refl eq_refl).
Defined.

(** The test double that renders every object as [e]. *)
Definition plain_spy : option (node ctype) -> M calls (value ctype) :=
  spy (fun _ => VStr "e").

Lemma C7_init_visited_twice_witness :
  exists v g' w1 b1 w4,
    visit_ForNode (collab:=c_backend) plain_spy
      (Some (VariableNode c_int "i")) (Some (VariableNode c_int "c"))
      (Some (VariableNode c_int "s")) (VariableNode c_int "b") false
      (new_generator 0 new_writer []) = OK (v, g') /\
    extra g'
    = [(Some (VariableNode c_int "i"), w1); (Some (VariableNode c_int "c"), w1);
       (Some (VariableNode c_int "s"), w1); (Some (VariableNode c_int "i"), w4);
       (Some (VariableNode c_int "b"), w4)] /\
    insert_before 0 (Line "for (e; e; e) {") (buffer w1) = Some b1 /\
    text_of (buffer w4) = text_of b1.
Proof.
  destruct (visit_ForNode (collab:=c_backend) plain_spy
              (Some (VariableNode c_int "i")) (Some (VariableNode c_int "c"))
              (Some (VariableNode c_int "s")) (VariableNode c_int "b") false
              (new_generator 0 new_writer [])) as [[v g']|e] eqn:E;
    [|vm_compute in E; discriminate E].
  destruct (proj2 (C7_init_visited_twice (collab:=c_backend) (X:=unit)
                     _ _ _ _ _) _ _ v g' E)
    as (w1 & b1 & w4 & He & Hb & Ht).
  exists v, g', w1, b1, w4. repeat split; assumption.
Defined.

Lemma C8_cleanup_skips_body_witness :
  CodeGenCleanup_dispatch plain_spy
    (ReturnNode (VariableNode c_int "x")) (new_generator 0 new_writer [])
  = OK (VNone,
        record [Some (VariableNode c_int "x")] (new_generator 0 new_writer [])).
Proof.
  apply (proj1 (proj2 (proj2
           (C8_cleanup_skips_body (X:=unit)
              None None None (VariableNode c_int "b") false)))).
  intros i c s b t H. discriminate H.
Defined.

Lemma C9_variable_mangled_attribute_verbatim_witness :
  str (collab:=prefix_backend) (VStr "__mv_x")
  <> str (collab:=prefix_backend) (VStr "x").
Proof.
  apply (proj2 (proj2 (C9_variable_mangled_attribute_verbatim
                         (collab:=prefix_backend) c_int "x"
                         (new_generator 0 new_writer tt)))
           ltac:(discriminate)
           (VStr "__mv_x") (new_generator 0 new_writer tt)
           (VStr "x") (new_generator 0 new_writer tt)
           eq_refl eq_refl).
Defined.

Lemma C10_cleanup_loop_needs_header_witness :
  cleanup_visit
    (ForNode (Some (VariableNode c_int "i")) (Some (VariableNode c_int "c"))
       (Some (VariableNode c_int "s")) (VariableNode c_int "b") false)
    (new_generator 0 new_writer tt)
  = OK (VNone, new_generator 0 new_writer tt) /\
  cleanup_visit
    (ForNode None (Some (VariableNode c_int "c"))
       (Some (VariableNode c_int "s")) (VariableNode c_int "b") false)
    (new_generator 0 new_writer tt)
  = Err DispatchFailure.
Proof.
  destruct (C10_cleanup_loop_needs_header
              (VariableNode c_int "b") false (new_generator 0 new_writer tt))
    as (_ & Hin & Hout & _).
  split.
  - apply Hin; reflexivity.
  - apply Hout. left. reflexivity.
Defined.

(** * Further properties of the generator *)

(** ** The nodes of a tree *)

(** Every node of the tree, the root first. *)
Fixpoint subnodes {type : Type} (n : node type) : list (node type) :=
  let opt o := match o with Some m => subnodes m | None => [] end in
  n :: match n with
       | FunctionNode _ _ _ arguments body =>
           subnodes body ++ flat_map subnodes arguments
       | FunctionArgument variables => flat_map subnodes variables
       | StatListNode stats => flat_map subnodes stats
       | ForNode init condition step body _ =>
           opt init ++ opt condition ++ opt step ++ subnodes body
       | ReturnNode operand => subnodes operand
       | BinopNode lhs _ rhs => subnodes lhs ++ subnodes rhs
       | UnopNode _ operand => subnodes operand
       | AssignmentExpr lhs rhs => subnodes lhs ++ subnodes rhs
       | AssignmentNode operand => subnodes operand
       | CastNode _ operand => subnodes operand
       | DereferenceNode operand => subnodes operand
       | SingleIndexNode lhs rhs => subnodes lhs ++ subnodes rhs
       | JumpNode label => subnodes label
       | JumpTargetNode label => subnodes label
       | TempNode _ _ | ArrayAttribute _ | VariableNode _ _ | LabelNode _ _
       | ConstantNode _ => []
       end.

Definition subnodes_child {type : Type} (c : children type)
  : list (node type) :=
  match c with
  | Child None => []
  | Child (Some n) => subnodes n
  | ChildList l => flat_map subnodes l
  end.

Lemma subnodes_children {type : Type} (n : node type) :
  subnodes n = n :: flat_map subnodes_child (child_attrs n).
Proof. destruct n; simpl; rewrite ?app_nil_r; reflexivity. Qed.

Lemma flat_map_flat_map {A B C} (f : A -> list B) (g : B -> list C) l :
  flat_map g (flat_map f l) = flat_map (fun x => flat_map g (f x)) l.
Proof.
  induction l as [|x r IH]; [reflexivity|].
  simpl. rewrite flat_map_app, IH. reflexivity.
Qed.

Lemma labels_of_subnodes {type : Type} (n : node type) oid name :
  In (oid, name) (labels_of n) <-> In (LabelNode oid name) (subnodes n).
Proof.
  revert n.
  apply (node_children_ind
           (fun n => In (oid, name) (labels_of n)
                     <-> In (LabelNode oid name) (subnodes n))).
  intros n IH.
  assert (Hc : Forall (fun c => In (oid, name) (labels_of_child c)
                                <-> In (LabelNode oid name) (subnodes_child c))
                      (child_attrs n)).
  { eapply Forall_impl; [exact IH|]. intros [[m|]|l] Hm; simpl in *.
    - exact Hm.
    - reflexivity.
    - rewrite !in_flat_map. split; intros (x & Hx & Hin); exists x;
        (split; [exact Hx|]); rewrite Forall_forall in Hm;
        apply (Hm x (proj2 (list_elem_of_In _ _) Hx)); exact Hin. }
  assert (Hcs : In (oid, name) (flat_map labels_of_child (child_attrs n))
                <-> In (LabelNode oid name)
                       (flat_map subnodes_child (child_attrs n))).
  { rewrite !in_flat_map. rewrite Forall_forall in Hc.
    split; intros (c & Hcin & Hin); exists c; (split; [exact Hcin|]);
      apply (Hc c (proj2 (list_elem_of_In _ _) Hcin)); exact Hin. }
  rewrite subnodes_children. pose proof (labels_of_children n) as E.
  destruct n; try (rewrite E; simpl In; rewrite Hcs;
                   split; [intros Hin; right; exact Hin
                          |intros [Hd|Hin]; [discriminate Hd|exact Hin]]).
  simpl. split.
  - intros [Hd|[]]. inversion Hd; subst. left. reflexivity.
  - intros [Hd|[]]. inversion Hd; subst. left. reflexivity.
Qed.

(** ** What a run adds to a set the generator keeps

    [F] reads a finite set off the generator (the declared temporaries, the
    labels that have a name), blind to the writer and to the names of the
    functions; [leaf n] lists what the handler of [n] itself puts into it.
    [adds m S]: a successful run of [m] adds exactly the items of [S]. *)

Section Footprint.

Context {type X : Type} {collab : Collaborators type}.
Context {item : Type} `{Countable item}.
Local Open Scope gen_scope.

Local Abbreviation M := (M X).
Local Abbreviation node := (node type).

Variable F : generator X -> gset item.
Variable leaf : node -> list item.

Definition adds {A} (m : M A) (S : list item) : Prop :=
  forall g a g', m g = OK (a, g') -> F g' = F g ∪ list_to_set S.

Definition collect (n : node) : list item := flat_map leaf (subnodes n).

Definition collect_child (c : children type) : list item :=
  flat_map leaf (subnodes_child c).

(** [m] touches nothing but the writer. *)
Definition writer_only {A} (m : M A) : Prop :=
  forall g a g', m g = OK (a, g') -> exists w, g' = set_writer w g.

Ltac same_items :=
  apply set_eq; intros ?;
  rewrite ?elem_of_union, ?elem_of_list_to_set, ?elem_of_app, ?elem_of_nil;
  tauto.

Hypothesis F_writer : forall g w, F (set_writer w g) = F g.
Hypothesis F_function :
  forall g oid s, F (set_function_mangled_name oid s g) = F g.
Hypothesis leaf_temp :
  forall ty name, adds (visit_TempNode ty name) (leaf (TempNode ty name)).
Hypothesis leaf_label :
  forall oid name, adds (visit_LabelNode oid name) (leaf (LabelNode oid name)).
Hypothesis leaf_other :
  forall n, match n with
            | TempNode _ _ | LabelNode _ _ => True
            | _ => leaf n = []
            end.

Lemma adds_ret {A} (a : A) : adds (ret a) [].
Proof. intros g b g' Hr. apply ret_OK in Hr as [_ ->]. same_items. Qed.

Lemma adds_raise {A} e S : adds (raise (A:=A) e) S.
Proof. intros g b g' Hr. discriminate Hr. Qed.

Lemma adds_lift {A} (r : result A) : adds (lift r) [].
Proof. intros g b g' Hr. apply lift_OK in Hr as [_ ->]. same_items. Qed.

Lemma adds_get : adds get [].
Proof. intros g b g' Hr. apply get_OK in Hr as [_ ->]. same_items. Qed.

Lemma adds_bind {A B} (m : M A) (k : A -> M B) S1 S2 :
  adds m S1 -> (forall a, adds (k a) S2) -> adds (bind m k) (S1 ++ S2).
Proof.
  intros Hm Hk g b g' Hr. apply bind_OK in Hr as (a & g1 & H1 & H2).
  rewrite (Hk a _ _ _ H2), (Hm _ _ _ H1). same_items.
Qed.

Lemma adds_equiv {A} (m : M A) S S' :
  (forall x, In x S <-> In x S') -> adds m S -> adds m S'.
Proof.
  intros HS Hm g a g' Hr. rewrite (Hm _ _ _ Hr).
  apply set_eq. intros x. rewrite !elem_of_union, !elem_of_list_to_set.
  rewrite !list_elem_of_In, HS. reflexivity.
Qed.

Lemma adds_writer_only {A} (m : M A) : writer_only m -> adds m [].
Proof.
  intros Hm g a g' Hr. destruct (Hm _ _ _ Hr) as [w ->].
  rewrite F_writer. same_items.
Qed.

Lemma adds_mapM {A B} (f : A -> M B) (S : A -> list item) (l : list A) :
  Forall (fun x => adds (f x) (S x)) l -> adds (mapM f l) (flat_map S l).
Proof.
  induction 1 as [|x r Hx Hr IH]; simpl.
  - apply adds_ret.
  - apply adds_bind; [exact Hx|]. intros v.
    rewrite <- (app_nil_r (flat_map S r)).
    apply adds_bind; [exact IH|]. intros vs. apply adds_ret.
Qed.

Lemma writer_only_putln_at c s : writer_only (putln_at (X:=X) c s).
Proof.
  intros g u g' Hr. apply putln_at_OK in Hr as (b & _ & ->). eexists. reflexivity.
Qed.

Lemma writer_only_putln s : writer_only (putln (X:=X) s).
Proof.
  intros g u g' Hr. apply putln_OK in Hr as (b & _ & ->). eexists. reflexivity.
Qed.

Lemma writer_only_insertion_point : writer_only (insertion_point (X:=X)).
Proof.
  intros g p g' Hr. apply insertion_point_OK in Hr as (b & _ & _ & ->).
  eexists. reflexivity.
Qed.

Lemma writer_only_modify (f : generator X -> CodeWriter) :
  writer_only (modify (fun g => set_writer (f g) g)).
Proof. intros g u g' Hr. apply modify_OK in Hr as ->. eexists. reflexivity. Qed.

(** What the dispatcher adds on the children of a node. *)
Definition adds_child (self : option node -> M (value type))
  (c : children type) : Prop :=
  match c with
  | Child None => True
  | Child (Some n) => adds (self (Some n)) (collect n)
  | ChildList l => Forall (fun n => adds (self (Some n)) (collect n)) l
  end.

Section Handlers.

Variable self : option node -> M (value type).
Hypothesis self_absent : forall S, adds (self None) S.

Local Abbreviation adds_child := (adds_child self).

Lemma adds_self (o : option node) :
  adds_child (Child o) -> adds (self o) (collect_child (Child o)).
Proof. destruct o as [n|]; intros Hc; [exact Hc|apply self_absent]. Qed.

Lemma adds_visit_childlist (c : children type) :
  adds_child c -> adds (visit_childlist self c) (collect_child c).
Proof.
  destruct c as [o|l]; intros Hc; unfold visit_childlist.
  - rewrite <- (app_nil_r (collect_child (Child o))).
    apply adds_bind; [apply adds_self, Hc|]. intros v. apply adds_ret.
  - rewrite <- (app_nil_r (collect_child (ChildList l))).
    apply adds_bind; [|intros v; apply adds_ret].
    unfold collect_child. simpl subnodes_child. rewrite flat_map_flat_map.
    apply adds_mapM. exact Hc.
Qed.

Lemma adds_results_from (cs : list (children type)) :
  Forall adds_child cs ->
  forall acc, adds (results_from self cs acc) (flat_map collect_child cs).
Proof.
  induction 1 as [|c r Hc Hr IH]; intros acc; simpl.
  - apply adds_ret.
  - apply adds_bind; [apply adds_visit_childlist, Hc|].
    intros [v|l]; apply IH.
Qed.

Lemma adds_results (cs : list (children type)) :
  Forall adds_child cs -> adds (results self cs) (flat_map collect_child cs).
Proof. intros Hc. apply adds_results_from, Hc. Qed.

Lemma adds_visitchildren (n : node) :
  Forall adds_child (child_attrs n) ->
  adds (visitchildren self n) (flat_map collect_child (child_attrs n)).
Proof.
  intros Hc. unfold visitchildren.
  rewrite <- (app_nil_r (flat_map collect_child (child_attrs n))).
  apply adds_bind; [|intros v; apply adds_ret].
  apply adds_mapM. eapply Forall_impl; [exact Hc|].
  intros c Hcc. apply adds_visit_childlist, Hcc.
Qed.

Lemma adds_visit_ForNode init condition step body is_tiled :
  adds_child (Child init) -> adds_child (Child condition) ->
  adds_child (Child step) -> adds_child (Child (Some body)) ->
  adds (visit_ForNode self init condition step body is_tiled)
       (flat_map collect_child
          [Child init; Child condition; Child step; Child (Some body)]).
Proof.
  intros Hi Hc Hs Hb g v g' Hr. unfold visit_ForNode in Hr.
  apply bind_OK in Hr as (eh & g1 & H1 & Hr).
  apply error_handler_OK in H1 as (w1 & -> & _).
  apply bind_OK in Hr as (exprs & g2 & H2 & Hr).
  apply (adds_results [Child init; Child condition; Child step]) in H2;
    [|repeat first [apply List.Forall_nil | apply List.Forall_cons];
      assumption].
  apply bind_OK in Hr as (line & g3 & H3 & Hr). apply lift_OK in H3 as [_ ->].
  apply bind_OK in Hr as (u1 & g4 & H4 & Hr).
  apply putln_OK in H4 as (b1 & _ & ->).
  apply bind_OK in Hr as (u2 & g5 & H5 & Hr).
  apply enter_levels_OK in H5 as (w4 & -> & _ & _).
  apply bind_OK in Hr as (v1 & g6 & H6 & Hr).
  apply (adds_self init Hi) in H6.
  apply bind_OK in Hr as (v2 & g7 & H7 & Hr).
  apply (adds_self (Some body) Hb) in H7.
  apply dispose_then_OK in Hr as (w8 & _ & Hr).
  apply bind_OK in Hr as (u4 & g9 & H9 & Hr).
  apply leave_levels_OK in H9 as (w9 & -> & _ & _).
  apply bind_OK in Hr as (u5 & g10 & H10 & Hr).
  apply putln_OK in H10 as (b10 & _ & ->).
  apply ret_OK in Hr as [_ ->].
  rewrite ?F_writer in *. rewrite H7, H6, H2.
  unfold collect_child at 4. simpl flat_map. same_items.
Qed.

End Handlers.

Lemma adds_children (cs : list (children type)) :
  Forall (on_child (fun m => adds (visit m) (collect m))) cs ->
  Forall (adds_child self_visit) cs.
Proof.
  intros Hcs. eapply Forall_impl; [exact Hcs|].
  intros [[m|]|l] Hc; simpl in *; [exact Hc|exact I|exact Hc].
Qed.

Lemma collect_children (n : node) :
  collect n = leaf n ++ flat_map collect_child (child_attrs n).
Proof.
  unfold collect. rewrite subnodes_children. simpl.
  rewrite flat_map_flat_map. reflexivity.
Qed.

Ltac adds_now :=
  repeat first
    [ eassumption
    | match goal with
      | Hc : adds_child _ (Child (Some ?n)) |- adds (_ (Some ?n)) _ => exact Hc
      end
    | apply adds_ret
    | apply adds_lift
    | apply adds_get
    | apply adds_raise
    | apply adds_writer_only, writer_only_putln
    | apply adds_writer_only, writer_only_putln_at
    | apply adds_writer_only, writer_only_insertion_point
    | apply adds_writer_only, writer_only_modify
    | apply adds_results;
        [ intros ?; apply adds_raise
        | repeat first [apply List.Forall_nil | apply List.Forall_cons];
          assumption ]
    | apply adds_visitchildren;
        [ intros ?; apply adds_raise
        | simpl; repeat first [apply List.Forall_nil | apply List.Forall_cons];
          assumption ]
    | eapply adds_bind; [ | intros ?] ].

(** A successful traversal adds what the handlers of its nodes add, and
    nothing else. *)
Lemma adds_set_function_mangled_name oid s :
  adds (modify (set_function_mangled_name (X:=X) oid s)) [].
Proof.
  intros g u g' Hr. apply modify_OK in Hr as ->.
  rewrite F_function. same_items.
Qed.

Ltac same_members :=
  let x := fresh "x" in
  intros x; unfold collect_child, collect; simpl;
  rewrite ?flat_map_flat_map, ?in_app_iff; simpl; tauto.

Ltac adds_handler :=
  eapply adds_equiv; [|adds_now]; same_members.

Theorem visit_adds (n : node) : adds (visit n) (collect n).
Proof.
  revert n.
  apply (node_children_ind (fun n => adds (visit n) (collect n))).
  intros n IH. apply adds_children in IH.
  pose proof (leaf_other n) as Hleaf.
  eapply adds_equiv;
    [intros x; rewrite (collect_children n); reflexivity|].
  rewrite visit_unfold.
  destruct n; simpl CCodeGen_dispatch; simpl child_attrs in *;
    try rewrite Hleaf;
    repeat match goal with
           | Hc : Forall (adds_child _) (_ :: _) |- _ =>
               inversion Hc; subst; clear Hc
           | Hc : Forall (adds_child _) [] |- _ => clear Hc
           end.
  - unfold visit_FunctionNode.
    eapply adds_equiv;
      [|eapply adds_bind;
        [apply adds_set_function_mangled_name|intros ?; adds_now]].
    same_members.
  - unfold visit_FunctionArgument.
    eapply adds_equiv;
      [|eapply adds_bind;
        [apply (adds_mapM _ collect)|intros ?; adds_now]].
    + same_members.
    + eapply Forall_impl; [eassumption|]. intros v Hv.
      change (adds (self_visit (Some v)) (collect v)) in Hv.
      adds_handler.
  - unfold visit_StatListNode. adds_handler.
  - apply adds_visit_ForNode; [intros ?; apply adds_raise|..]; assumption.
  - unfold visit_ReturnNode. adds_handler.
  - unfold visit_BinopNode. adds_handler.
  - unfold visit_UnopNode. adds_handler.
  - eapply adds_equiv; [|apply leaf_temp]. same_members.
  - unfold visit_AssignmentExpr. adds_handler.
  - unfold visit_AssignmentNode. adds_handler.
  - unfold visit_CastNode. adds_handler.
  - unfold visit_DereferenceNode. adds_handler.
  - unfold visit_SingleIndexNode. adds_handler.
  - unfold visit_ArrayAttribute. adds_handler.
  - unfold visit_Variable. adds_handler.
  - unfold visit_JumpNode. adds_handler.
  - unfold visit_JumpTargetNode. adds_handler.
  - eapply adds_equiv; [|apply leaf_label]. same_members.
  - unfold visit_ConstantNode. adds_handler.
Qed.

End Footprint.

(** ** Temporaries and labels of a whole tree *)

Section Whole_tree.

Context {type X : Type} {collab : Collaborators type}.
Local Open Scope gen_scope.

Local Abbreviation node := (node type).

(** What the handler of a node itself declares. *)
Definition declared_by (n : node) : list string :=
  match n with
  | TempNode _ name => [mangle name]
  | _ => []
  end.

(** The label a node itself names. *)
Definition named_by (n : node) : list nat :=
  match n with
  | LabelNode oid _ => [oid]
  | _ => []
  end.

Lemma visit_TempNode_declares ty name :
  adds (X:=X) declared_temps (visit_TempNode ty name)
       (declared_by (TempNode ty name)).
Proof.
  intros g v g' H. unfold visit_TempNode in H.
  apply bind_OK in H as (g0 & g1 & Hg & H). apply get_OK in Hg as [-> ->].
  simpl declared_by.
  destruct (decide (mangle name ∈ declared_temps g)) as [Hin|Hnin].
  - apply ret_OK in H as [_ ->]. set_solver.
  - apply bind_OK in H as (u & g1 & Hm & H). apply modify_OK in Hm as ->.
    apply bind_OK in H as (g0 & g2 & Hg & H). apply get_OK in Hg as [-> ->].
    simpl in H. destruct (declaration_point (writer g)); [|discriminate].
    apply bind_OK in H as (line & g3 & Hl & H). apply lift_OK in Hl as [_ ->].
    apply bind_OK in H as (u' & g4 & Hp & H).
    apply putln_at_OK in Hp as (b & _ & ->). apply ret_OK in H as [_ ->].
    simpl. set_solver.
Qed.

Lemma visit_LabelNode_declares oid name :
  adds (X:=X) declared_temps (visit_LabelNode oid name)
       (declared_by (LabelNode oid name)).
Proof.
  intros g v g' H. unfold visit_LabelNode in H.
  apply bind_OK in H as (g0 & g1 & Hg & H). apply get_OK in Hg as [-> ->].
  destruct (label_mangled_name g !! oid).
  - apply ret_OK in H as [_ ->]. set_solver.
  - apply bind_OK in H as (s & g1 & H1 & H). apply lift_OK in H1 as [_ ->].
    apply bind_OK in H as (u & g2 & H2 & H). apply modify_OK in H2 as ->.
    apply ret_OK in H as [_ ->]. simpl. set_solver.
Qed.

Lemma visit_TempNode_names ty name :
  adds (X:=X) (fun g => dom (label_mangled_name g)) (visit_TempNode ty name)
       (named_by (TempNode ty name)).
Proof.
  intros g v g' H. unfold visit_TempNode in H.
  apply bind_OK in H as (g0 & g1 & Hg & H). apply get_OK in Hg as [-> ->].
  simpl named_by.
  destruct (decide (mangle name ∈ declared_temps g)) as [Hin|Hnin].
  - apply ret_OK in H as [_ ->]. set_solver.
  - apply bind_OK in H as (u & g1 & Hm & H). apply modify_OK in Hm as ->.
    apply bind_OK in H as (g0 & g2 & Hg & H). apply get_OK in Hg as [-> ->].
    simpl in H. destruct (declaration_point (writer g)); [|discriminate].
    apply bind_OK in H as (line & g3 & Hl & H). apply lift_OK in Hl as [_ ->].
    apply bind_OK in H as (u' & g4 & Hp & H).
    apply putln_at_OK in Hp as (b & _ & ->). apply ret_OK in H as [_ ->].
    simpl. set_solver.
Qed.

Lemma visit_LabelNode_names oid name :
  adds (X:=X) (fun g => dom (label_mangled_name g)) (visit_LabelNode oid name)
       (named_by (LabelNode oid name)).
Proof.
  intros g v g' H. unfold visit_LabelNode in H.
  apply bind_OK in H as (g0 & g1 & Hg & H). apply get_OK in Hg as [-> ->].
  simpl named_by.
  destruct (label_mangled_name g !! oid) as [s|] eqn:E.
  - apply ret_OK in H as [_ ->].
    assert (oid ∈ dom (label_mangled_name g)) by (apply elem_of_dom; eauto).
    set_solver.
  - apply bind_OK in H as (s & g1 & H1 & H). apply lift_OK in H1 as [_ ->].
    apply bind_OK in H as (u & g2 & H2 & H). apply modify_OK in H2 as ->.
    apply ret_OK in H as [_ ->]. simpl. rewrite dom_insert_L. set_solver.
Qed.

(** After a successful run the declared temporaries are the ones declared
    before together with the mangled names of the [Temp] nodes of the tree:
    every temporary of the tree is declared, and nothing else is. *)
Theorem run_declares_the_temps_of_the_tree (n : node) (g : generator X) v g' :
  visit n g = OK (v, g') ->
  forall s,
    s ∈ declared_temps g' <->
    s ∈ declared_temps g \/
    exists ty name, In (TempNode ty name) (subnodes n) /\ s = mangle name.
Proof.
  intros H s.
  rewrite (visit_adds declared_temps declared_by
             (fun _ _ => eq_refl) (fun _ _ _ => eq_refl)
             visit_TempNode_declares visit_LabelNode_declares
             (fun m => match m with
                       | TempNode _ _ | LabelNode _ _ => I
                       | _ => eq_refl
                       end) n g v g' H).
  rewrite elem_of_union, elem_of_list_to_set, list_elem_of_In.
  unfold collect. rewrite in_flat_map.
  split; (intros [Hs|Hs]; [left; exact Hs|right]).
  - destruct Hs as (m & Hm & Hin). destruct m; try destruct Hin.
    + exists ty, name. split; [exact Hm|congruence].
    + contradiction.
  - destruct Hs as (ty & name & Hm & ->).
    exists (TempNode ty name). split; [exact Hm|left; reflexivity].
Qed.

(** After a successful run the labels that have a name are the ones that
    had one before together with the [Label] nodes of the tree. *)
Theorem run_names_the_labels_of_the_tree (n : node) (g : generator X) v g' :
  visit n g = OK (v, g') ->
  forall oid,
    is_Some (label_mangled_name g' !! oid) <->
    is_Some (label_mangled_name g !! oid) \/
    exists name, In (LabelNode oid name) (subnodes n).
Proof.
  intros H oid. rewrite <- !elem_of_dom.
  rewrite (visit_adds (fun g => dom (label_mangled_name g)) named_by
             (fun _ _ => eq_refl) (fun _ _ _ => eq_refl)
             visit_TempNode_names visit_LabelNode_names
             (fun m => match m with
                       | TempNode _ _ | LabelNode _ _ => I
                       | _ => eq_refl
                       end) n g v g' H).
  rewrite elem_of_union, elem_of_list_to_set, list_elem_of_In.
  unfold collect. rewrite in_flat_map.
  split; (intros [Hs|Hs]; [left; exact Hs|right]).
  - destruct Hs as (m & Hm & Hin). destruct m; try destruct Hin.
    + subst. eexists. exact Hm.
    + contradiction.
  - destruct Hs as (name & Hm).
    exists (LabelNode oid name). split; [exact Hm|left; reflexivity].
Qed.

End Whole_tree.

(** ** Values, statements and lists *)

Section Handlers_more.

Context {type X : Type} {collab : Collaborators type}.
Local Open Scope gen_scope.

Local Abbreviation node := (node type).

(** [results] calls the dispatcher once on every child, a list child
    element by element, in order, and returns the values in that order in
    one flat list. *)
Theorem results_one_flat_list tag (cs : list (children type))
  (g : generator calls) :
  results (spy tag) cs g = OK (map tag (visited cs), record (visited cs) g).
Proof. unfold results. rewrite spy_results_from. reflexivity. Qed.

(** What a handler returns: nothing for the statement kinds, the node
    itself for a statement list, a string for every other kind. *)
Definition result_kind (n : node) (v : value type) : Prop :=
  match n with
  | FunctionNode _ _ _ _ _ | ForNode _ _ _ _ _ | ReturnNode _
  | AssignmentNode _ | JumpNode _ | JumpTargetNode _ => v = VNone
  | StatListNode _ => v = VNode n
  | _ => exists s, v = VStr s
  end.

Ltac to_the_end H :=
  repeat (apply bind_OK in H as (? & ? & _ & H); cbv beta in H).

Lemma result_kind_of_visit (n : node) (g : generator X) v g' :
  visit n g = OK (v, g') -> result_kind n v.
Proof.
  rewrite visit_unfold. intros H.
  destruct n; simpl in H; unfold result_kind.
  - unfold visit_FunctionNode in H. to_the_end H.
    apply ret_OK in H as [-> _]. reflexivity.
  - unfold visit_FunctionArgument in H. to_the_end H.
    apply ret_OK in H as [-> _]. eexists. reflexivity.
  - unfold visit_StatListNode in H. to_the_end H.
    apply ret_OK in H as [-> _]. reflexivity.
  - unfold visit_ForNode in H. to_the_end H.
    apply ret_OK in H as [-> _]. reflexivity.
  - unfold visit_ReturnNode in H. to_the_end H.
    apply ret_OK in H as [-> _]. reflexivity.
  - unfold visit_BinopNode in H. to_the_end H.
    apply ret_OK in H as [-> _]. eexists. reflexivity.
  - unfold visit_UnopNode in H. to_the_end H.
    apply ret_OK in H as [-> _]. eexists. reflexivity.
  - unfold visit_TempNode in H.
    apply bind_OK in H as (g0 & g1 & Hg & H). apply get_OK in Hg as [-> ->].
    destruct (decide (mangle name ∈ declared_temps g)).
    + apply ret_OK in H as [-> _]. eexists. reflexivity.
    + apply bind_OK in H as (? & ? & _ & H).
      apply bind_OK in H as (g0 & ? & _ & H). cbv beta in H.
      destruct (declaration_point (writer g0)); [|discriminate].
      to_the_end H. apply ret_OK in H as [-> _]. eexists. reflexivity.
  - unfold visit_AssignmentExpr in H. to_the_end H.
    apply ret_OK in H as [-> _]. eexists. reflexivity.
  - unfold visit_AssignmentNode in H. to_the_end H.
    apply ret_OK in H as [-> _]. reflexivity.
  - unfold visit_CastNode in H. to_the_end H.
    apply ret_OK in H as [-> _]. eexists. reflexivity.
  - unfold visit_DereferenceNode in H. to_the_end H.
    apply ret_OK in H as [-> _]. eexists. reflexivity.
  - unfold visit_SingleIndexNode in H. to_the_end H.
    apply ret_OK in H as [-> _]. eexists. reflexivity.
  - apply ret_OK in H as [-> _]. eexists. reflexivity.
  - apply ret_OK in H as [-> _]. eexists. reflexivity.
  - unfold visit_JumpNode in H. to_the_end H.
    apply ret_OK in H as [-> _]. reflexivity.
  - unfold visit_JumpTargetNode in H. to_the_end H.
    apply ret_OK in H as [-> _]. reflexivity.
  - unfold visit_LabelNode in H.
    apply bind_OK in H as (g0 & g1 & Hg & H). apply get_OK in Hg as [-> ->].
    destruct (label_mangled_name g !! oid).
    + apply ret_OK in H as [-> _]. eexists. reflexivity.
    + to_the_end H. apply ret_OK in H as [-> _]. eexists. reflexivity.
  - apply ret_OK in H as [-> _]. eexists. reflexivity.
Qed.

(** Every handler returns a value of the kind of its node: [None] from the
    six statement kinds, the node itself from a statement list, a string
    from every other kind. *)
Theorem visit_result_kind (n : node) (g : generator X) v g' :
  visit n g = OK (v, g') -> result_kind n v.
Proof. apply result_kind_of_visit. Qed.

(** The kinds whose handler returns no string. *)
Definition renders_no_string (n : node) : bool :=
  match n with
  | FunctionNode _ _ _ _ _ | ForNode _ _ _ _ _ | ReturnNode _
  | AssignmentNode _ | JumpNode _ | JumpTargetNode _ | StatListNode _ => true
  | _ => false
  end.

(** An assignment statement adds [;] to what its operand renders to: on an
    operand of a kind that renders to no string (a statement, a statement
    list) that lowers well, the assignment raises [TypeError]. *)
Theorem assignment_of_a_statement_raises (operand : node) (g : generator X)
  v1 g1 :
  renders_no_string operand = true ->
  visit operand g = OK (v1, g1) ->
  visit (AssignmentNode operand) g = Err TypeError.
Proof.
  intros Hk Hv. pose proof (result_kind_of_visit _ _ _ _ Hv) as Hr.
  rewrite visit_unfold. simpl. unfold visit_AssignmentNode, bind.
  change (self_visit (Some operand) g) with (visit operand g). rewrite Hv.
  destruct operand; try discriminate Hk; simpl in Hr; subst v1; reflexivity.
Qed.

Lemma mapM_app {A B} (f : A -> M X B) (l1 l2 : list A) (g : generator X) :
  mapM f (l1 ++ l2) g
  = match mapM f l1 g with
    | OK (v1, g1) =>
        match mapM f l2 g1 with
        | OK (v2, g2) => OK (v1 ++ v2, g2)
        | Err e => Err e
        end
    | Err e => Err e
    end.
Proof.
  revert g. induction l1 as [|x r IH]; intros g.
  - simpl. unfold ret. destruct (mapM f l2 g) as [[v2 g2]|e]; reflexivity.
  - simpl. unfold bind at 1 3. destruct (f x g) as [[v g1]|e]; [|reflexivity].
    unfold bind at 1 2.
    fold (mapM f). rewrite IH.
    destruct (mapM f r g1) as [[v1 g2]|e]; [|reflexivity].
    unfold ret. cbv iota beta.
    destruct (mapM f l2 g2) as [[v2 g3]|e]; reflexivity.
Qed.

Lemma visit_StatListNode_mapM (stats : list node) (g : generator X) :
  visit (StatListNode stats) g
  = match mapM (fun n => visit n) stats g with
    | OK (_, g') => OK (VNode (StatListNode stats), g')
    | Err e => Err e
    end.
Proof.
  rewrite visit_unfold. simpl.
  unfold visit_StatListNode, visitchildren. simpl child_attrs. simpl mapM.
  unfold visit_childlist, bind, ret.
  change (mapM (fun n => self_visit (Some n)) stats g)
    with (mapM (fun n => visit n) stats g).
  destruct (mapM (fun n => visit n) stats g) as [[vs g']|e]; reflexivity.
Qed.

(** A statement list lowers its statements in order and returns itself:
    lowering [l1 ++ l2] is lowering [l1] and then [l2] from the state that
    leaves, an error in either being the error of the whole; the empty list
    changes nothing. *)
Theorem statement_list_in_sequence (l1 l2 : list node) (g : generator X) :
  visit (StatListNode []) g = OK (VNode (StatListNode []), g) /\
  visit (StatListNode (l1 ++ l2)) g
  = match visit (StatListNode l1) g with
    | OK (_, g1) =>
        match visit (StatListNode l2) g1 with
        | OK (_, g2) => OK (VNode (StatListNode (l1 ++ l2)), g2)
        | Err e => Err e
        end
    | Err e => Err e
    end.
Proof.
  split; [reflexivity|].
  rewrite !visit_StatListNode_mapM, mapM_app.
  destruct (mapM (fun n => visit n) l1 g) as [[v1 g1]|e]; [|reflexivity].
  rewrite visit_StatListNode_mapM.
  destruct (mapM (fun n => visit n) l2 g1) as [[v2 g2]|e]; reflexivity.
Qed.

(** A jump target names its label and writes [<name>:]; a jump to the same
    label node lowered at any later point of the run writes [goto <name>;]
    with the same name and assigns nothing. *)
Theorem target_then_jump_agree (oid : nat) (name : string) (g : generator X)
  v g' :
  visit (JumpTargetNode (LabelNode oid name)) g = OK (v, g') ->
  exists s,
    label_mangled_name g' !! oid = Some s /\
    insert_before (code g) (Line (s +:+ ":")) (buffer (writer g))
    = Some (buffer (writer g')) /\
    forall (n : node) v1 g1 name' v2 g2,
      visit n g' = OK (v1, g1) ->
      visit (JumpNode (LabelNode oid name')) g1 = OK (v2, g2) ->
      insert_before (code g1) (Line ("goto " +:+ s +:+ ";"))
        (buffer (writer g1)) = Some (buffer (writer g2)) /\
      label_mangled_name g2 = label_mangled_name g1 /\
      label_counter g2 = label_counter g1.
Proof.
  assert (Hline : forall (tpl : string) (node_of : node -> node)
             (g0 : generator X) v0 g0' name0,
             (forall k : generator X, visit (node_of (LabelNode oid name0)) k
                        = (exprs <- results self_visit
                                      [Child (Some (LabelNode oid name0))] ;;
                           line <- lift (percent tpl exprs) ;;
                           putln line ;; ret VNone) k) ->
             visit (node_of (LabelNode oid name0)) g0 = OK (v0, g0') ->
             exists s g1,
               visit (LabelNode oid name0) g0 = OK (VStr s, g1) /\
               exists line b,
                 percent tpl [VStr s] = OK line /\
                 insert_before (code g1) (Line line) (buffer (writer g1))
                 = Some b /\
                 g0' = set_writer (set_buffer b (writer g1)) g1).
  { intros tpl node_of g0 v0 g0' name0 Hunf H. rewrite Hunf in H.
    destruct (visit_label oid name0 g0) as (s & g1 & Hl & _).
    unfold results in H. simpl results_from in H.
    apply bind_OK in H as (exprs & g2 & H2 & H).
    apply bind_OK in H2 as (r & g3 & H3 & H2).
    apply bind_OK in H3 as (v3 & g4 & H4 & H3).
    change (visit (LabelNode oid name0) g0 = OK (v3, g4)) in H4.
    rewrite Hl in H4. inversion H4; subst v3 g4; clear H4.
    apply ret_OK in H3 as [-> ->]. apply ret_OK in H2 as [-> ->].
    apply bind_OK in H as (line' & g5 & H5 & H).
    apply lift_OK in H5 as [H5 ->].
    apply bind_OK in H as (u & g6 & H6 & H).
    apply putln_OK in H6 as (b & Hb & ->). apply ret_OK in H as [_ ->].
    exists s, g1. split; [exact Hl|]. exists line', b. repeat split; assumption. }
  intros H.
  destruct (Hline "%s:" JumpTargetNode g v g' name) as
    (s & g1 & Hl & line & b & Hp & Hb & ->);
    [intros k; rewrite visit_unfold; reflexivity|exact H|].
  destruct (visit_label oid name g) as (s' & g1' & Hl' & Hs & Hw & Hc & _).
  rewrite Hl in Hl'. inversion Hl'; subst s' g1'; clear Hl'.
  change (OK (s +:+ ":") = OK line) in Hp. inversion Hp; subst line; clear Hp.
  rewrite Hw, Hc in Hb.
  exists s. split; [exact Hs|]. split; [exact Hb|].
  intros n v1 g2 name' v2 g3 Hn Hj.
  assert (Hs2 : label_mangled_name g2 !! oid = Some s).
  { destruct (run_label_log n _ v1 g2 Hn) as [log Hlog].
    eapply label_log_stable; [exact Hlog|exact Hs]. }
  destruct (Hline "goto %s;" JumpNode g2 v2 g3 name') as
    (s2 & g4 & Hl2 & line2 & b2 & Hp2 & Hb2 & ->);
    [intros k; rewrite visit_unfold; reflexivity|exact Hj|].
  destruct (visit_label oid name' g2) as (s3 & g5 & Hl3 & _ & _ & _ & Hmemo & _).
  rewrite Hl2 in Hl3. inversion Hl3; subst s3 g5; clear Hl3.
  destruct (Hmemo s Hs2) as [-> ->].
  change (OK ("goto " +:+ s +:+ ";") = OK line2) in Hp2.
  inversion Hp2; subst line2; clear Hp2.
  repeat split. exact Hb2.
Qed.

Lemma label_log_size L c m log c' m' :
  label_log L c m log c' m' -> c' + size m = c + size m'.
Proof.
  induction 1 as [|c m oid name log c' m' Hn HL H IH]; [reflexivity|].
  rewrite map_size_insert_None in IH by exact Hn. lia.
Qed.

(** The label counter moves by one for every label that is given a name:
    over any run, the counter and the number of named labels grow by the
    same amount, and neither shrinks. *)
Theorem counter_counts_named_labels (n : node) (g : generator X) v g' :
  visit n g = OK (v, g') ->
  label_counter g <= label_counter g' /\
  label_counter g' + size (label_mangled_name g)
  = label_counter g + size (label_mangled_name g').
Proof.
  intros H. destruct (run_label_log n g v g' H) as [log Hlog].
  split; [eapply label_log_counter, Hlog|eapply label_log_size, Hlog].
Qed.

End Handlers_more.

(** ** Expressions *)

Section Expressions.

Context {type X : Type} {collab : Collaborators type}.
Local Open Scope gen_scope.

Local Abbreviation node := (node type).

(** The text of an expression, read off the handlers of the nine
    expression kinds; [None] for a tree that holds another kind. *)
Fixpoint render (n : node) : option string :=
  match n with
  | BinopNode lhs operator rhs =>
      match render lhs, render rhs with
      | Some l, Some r =>
          Some ("(" +:+ l +:+ " " +:+ operator +:+ " " +:+ r +:+ ")")
      | _, _ => None
      end
  | UnopNode operator operand =>
      match render operand with
      | Some e => Some ("(" +:+ operator +:+ e +:+ ")")
      | None => None
      end
  | AssignmentExpr lhs rhs =>
      match render lhs, render rhs with
      | Some l, Some r => Some (l +:+ " = " +:+ r)
      | _, _ => None
      end
  | CastNode ty operand =>
      match render operand with
      | Some e => Some ("((" +:+ declare_type ty +:+ ") " +:+ e +:+ ")")
      | None => None
      end
  | DereferenceNode operand =>
      match render operand with
      | Some e => Some ("(*" +:+ e +:+ ")")
      | None => None
      end
  | SingleIndexNode lhs rhs =>
      match render lhs, render rhs with
      | Some l, Some r => Some ("(" +:+ l +:+ "[" +:+ r +:+ "])")
      | _, _ => None
      end
  | ArrayAttribute name => Some name
  | VariableNode _ name => Some (mangle name)
  | ConstantNode value => Some (str_of_constant value)
  | _ => None
  end.

Lemma render_visit (n : node) (s : string) :
  render n = Some s -> forall g : generator X, visit n g = OK (VStr s, g).
Proof.
  revert s. induction n; intros s Hr g; simpl in Hr; try discriminate Hr.
  - destruct (render n1) as [l|]; [|discriminate].
    destruct (render n2) as [r|]; [|discriminate].
    inversion Hr; subst s; clear Hr.
    rewrite visit_unfold. simpl. unfold visit_BinopNode, bind.
    change (self_visit (Some n1) g) with (visit n1 g). rewrite (IHn1 l eq_refl).
    change (self_visit (Some n2) g) with (visit n2 g). rewrite (IHn2 r eq_refl).
    reflexivity.
  - destruct (render n) as [e|]; [|discriminate].
    inversion Hr; subst s; clear Hr.
    rewrite visit_unfold. simpl. unfold visit_UnopNode, bind.
    change (self_visit (Some n) g) with (visit n g). rewrite (IHn e eq_refl).
    reflexivity.
  - destruct (render n1) as [l|]; [|discriminate].
    destruct (render n2) as [r|]; [|discriminate].
    inversion Hr; subst s; clear Hr.
    rewrite visit_unfold. simpl.
    unfold visit_AssignmentExpr, results. simpl results_from.
    unfold bind.
    change (self_visit (Some n1) g) with (visit n1 g). rewrite (IHn1 l eq_refl).
    unfold ret. cbv iota beta.
    change (self_visit (Some n2) g) with (visit n2 g). rewrite (IHn2 r eq_refl).
    unfold lift. simpl. rewrite append_empty_r. reflexivity.
  - destruct (render n) as [e|]; [|discriminate].
    inversion Hr; subst s; clear Hr.
    rewrite visit_unfold. simpl. unfold visit_CastNode, bind.
    change (self_visit (Some n) g) with (visit n g). rewrite (IHn e eq_refl).
    reflexivity.
  - destruct (render n) as [e|]; [|discriminate].
    inversion Hr; subst s; clear Hr.
    rewrite visit_unfold. simpl. unfold visit_DereferenceNode, bind.
    change (self_visit (Some n) g) with (visit n g). rewrite (IHn e eq_refl).
    reflexivity.
  - destruct (render n1) as [l|]; [|discriminate].
    destruct (render n2) as [r|]; [|discriminate].
    inversion Hr; subst s; clear Hr.
    rewrite visit_unfold. simpl.
    unfold visit_SingleIndexNode, results. simpl results_from.
    unfold bind.
    change (self_visit (Some n1) g) with (visit n1 g). rewrite (IHn1 l eq_refl).
    unfold ret. cbv iota beta.
    change (self_visit (Some n2) g) with (visit n2 g). rewrite (IHn2 r eq_refl).
    reflexivity.
  - inversion Hr. reflexivity.
  - inversion Hr. reflexivity.
  - inversion Hr. reflexivity.
Qed.

(** A tree of expression kinds lowers to its text, whatever the state of
    the generator, and leaves that state as it is: nothing is written,
    declared or named, and nothing raises. *)
Theorem expressions_lower_purely (n : node) (s : string) :
  render n = Some s -> forall g : generator X, visit n g = OK (VStr s, g).
Proof. apply render_visit. Qed.

End Expressions.

(** ** Parentheses *)

Fixpoint count_char (c : ascii) (s : string) : nat :=
  match s with
  | EmptyString => 0
  | String d r => (if Ascii.eqb c d then 1 else 0) + count_char c r
  end.

(** As many opening as closing parentheses. *)
Definition balanced (s : string) : Prop :=
  count_char "(" s = count_char ")" s.

Lemma count_char_app c s t :
  count_char c (s +:+ t) = count_char c s + count_char c t.
Proof.
  induction s as [|d r IH]; [reflexivity|].
  change (count_char c (String d (r +:+ t))
          = count_char c (String d r) + count_char c t).
  simpl. rewrite IH. lia.
Qed.

Section Parentheses.

Context {type X : Type} {collab : Collaborators type}.

Local Abbreviation node := (node type).

(** The strings an expression takes from outside the generator: operators,
    names as mangled, types as rendered, constants as printed. *)
Fixpoint atoms (n : node) : list string :=
  match n with
  | BinopNode lhs operator rhs => operator :: atoms lhs ++ atoms rhs
  | UnopNode operator operand => operator :: atoms operand
  | AssignmentExpr lhs rhs => atoms lhs ++ atoms rhs
  | CastNode ty operand => declare_type ty :: atoms operand
  | DereferenceNode operand => atoms operand
  | SingleIndexNode lhs rhs => atoms lhs ++ atoms rhs
  | ArrayAttribute name => [name]
  | VariableNode _ name => [mangle name]
  | ConstantNode value => [str_of_constant value]
  | _ => []
  end.

(** The text of an expression has as many opening as closing parentheses
    when the operators, names, types and constants in it have. *)
Theorem rendered_parentheses_balance (n : node) (s : string) :
  render n = Some s -> Forall balanced (atoms n) ->
  forall (g : generator X) v g',
    visit n g = OK (v, g') -> exists t, v = VStr t /\ balanced t.
Proof.
  intros Hr Ha g v g' Hv.
  rewrite (render_visit n s Hr g) in Hv.
  inversion Hv; subst v g'; clear Hv. exists s. split; [reflexivity|].
  revert s Hr Ha. unfold balanced.
  induction n; intros s Hr Ha; simpl in Hr; try discriminate Hr; simpl in Ha.
  - destruct (render n1) as [l|]; [|discriminate].
    destruct (render n2) as [r|]; [|discriminate].
    inversion Hr; subst s; clear Hr.
    apply Forall_cons in Ha as [Ho Ha]. apply Forall_app in Ha as [H1 H2].
    specialize (IHn1 l eq_refl H1). specialize (IHn2 r eq_refl H2).
    unfold balanced in Ho. rewrite !count_char_app. simpl. lia.
  - destruct (render n) as [e|]; [|discriminate].
    inversion Hr; subst s; clear Hr.
    apply Forall_cons in Ha as [Ho Ha]. specialize (IHn e eq_refl Ha).
    unfold balanced in Ho. rewrite !count_char_app. simpl. lia.
  - destruct (render n1) as [l|]; [|discriminate].
    destruct (render n2) as [r|]; [|discriminate].
    inversion Hr; subst s; clear Hr.
    apply Forall_app in Ha as [H1 H2].
    specialize (IHn1 l eq_refl H1). specialize (IHn2 r eq_refl H2).
    rewrite !count_char_app. simpl. lia.
  - destruct (render n) as [e|]; [|discriminate].
    inversion Hr; subst s; clear Hr.
    apply Forall_cons in Ha as [Ho Ha]. specialize (IHn e eq_refl Ha).
    unfold balanced in Ho. rewrite !count_char_app. simpl. lia.
  - destruct (render n) as [e|]; [|discriminate].
    inversion Hr; subst s; clear Hr.
    specialize (IHn e eq_refl Ha). rewrite !count_char_app. simpl. lia.
  - destruct (render n1) as [l|]; [|discriminate].
    destruct (render n2) as [r|]; [|discriminate].
    inversion Hr; subst s; clear Hr.
    apply Forall_app in Ha as [H1 H2].
    specialize (IHn1 l eq_refl H1). specialize (IHn2 r eq_refl H2).
    rewrite !count_char_app. simpl. lia.
  - inversion Hr; subst s. apply Forall_cons in Ha as [Ho _]. exact Ho.
  - inversion Hr; subst s. apply Forall_cons in Ha as [Ho _]. exact Ho.
  - inversion Hr; subst s. apply Forall_cons in Ha as [Ho _]. exact Ho.
Qed.

End Parentheses.

(** ** Functions *)

Section Functions.

Context {type : Type} {collab : Collaborators type}.
Local Open Scope gen_scope.

Local Abbreviation node := (node type).

(** Function lowering on the test double.  The arguments are visited on
    the writer as it was; the signature they make is written once to the
    prototype stream, followed by [;], and once to the main buffer, followed
    by [ {]; the declaration point is the insertion point taken right after
    that opening line; the body and then the arguments are visited on the
    writer as it is then; the closing brace comes last; and the mangled name
    is stored on the function node. *)
Theorem function_prologue tag (oid : nat) (name specialization_name : string)
  (arguments : list node) (body : node) (g : generator calls) v g' :
  visit_FunctionNode (spy tag) oid name specialization_name arguments body g
  = OK (v, g') ->
  exists joined b1 b2,
    join ", " (map (fun a => tag (Some a)) arguments) = OK joined /\
    let proto :=
      "static int " +:+ mangle (name +:+ specialization_name)
      +:+ "(" +:+ joined +:+ ")" in
    let w :=
      mkWriter b2 (proto_code (writer g) ++ [proto +:+ ";"])
               (S (fresh (writer g))) (declaration_levels (writer g))
               (loop_levels (writer g)) (Some (fresh (writer g))) in
    insert_before (code g) (Line (proto +:+ " {")) (buffer (writer g))
    = Some b1 /\
    insert_before (code g) (Mark (fresh (writer g))) b1 = Some b2 /\
    insert_before (code g) (Line "}") b2 = Some (buffer (writer g')) /\
    extra g'
    = extra g ++ map (fun a => (Some a, writer g)) arguments
              ++ (Some body, w) :: map (fun a => (Some a, w)) arguments /\
    proto_code (writer g') = proto_code (writer g) ++ [proto +:+ ";"] /\
    declaration_point (writer g') = Some (fresh (writer g)) /\
    function_mangled_name g' !! oid
    = Some (mangle (name +:+ specialization_name)).
Proof.
  intros H. unfold visit_FunctionNode in H.
  apply bind_OK in H as (u0 & g0 & H0 & H). apply modify_OK in H0 as ->.
  apply bind_OK in H as (args & g1 & H1 & H).
  unfold results in H1. rewrite spy_results_from in H1.
  inversion H1; subst args g1; clear H1. simpl app in H.
  simpl visited in H. rewrite app_nil_r, map_map in H.
  apply bind_OK in H as (joined & g2 & H2 & H). apply lift_OK in H2 as [Hj ->].
  apply bind_OK in H as (proto & g3 & H3 & H). apply lift_OK in H3 as [Hp ->].
  change (OK ("static int " +:+ mangle (name +:+ specialization_name)
              +:+ "(" +:+ joined +:+ ")") = OK proto) in Hp.
  inversion Hp; subst proto; clear Hp.
  apply bind_OK in H as (u4 & g4 & H4 & H). apply modify_OK in H4 as ->.
  apply bind_OK in H as (line & g5 & H5 & H). apply lift_OK in H5 as [Hl ->].
  change (OK (("static int " +:+ mangle (name +:+ specialization_name)
               +:+ "(" +:+ joined +:+ ")") +:+ " {") = OK line) in Hl.
  inversion Hl; subst line; clear Hl.
  apply bind_OK in H as (u6 & g6 & H6 & H).
  apply putln_OK in H6 as (b1 & Hb1 & ->).
  apply bind_OK in H as (p & g7 & H7 & H).
  apply insertion_point_OK in H7 as (b2 & Hb2 & -> & ->).
  apply bind_OK in H as (u8 & g8 & H8 & H). apply modify_OK in H8 as ->.
  apply bind_OK in H as (u9 & g9 & H9 & H).
  unfold visitchildren in H9.
  apply bind_OK in H9 as (rs & g10 & H10 & H9). apply ret_OK in H9 as [_ ->].
  match type of H10 with
  | mapM _ ?cs ?g0 = _ =>
      destruct (spy_mapM_childlist tag cs g0) as (rs' & Hrs)
  end.
  rewrite Hrs in H10. inversion H10; subst rs g10; clear H10 Hrs.
  apply bind_OK in H as (u11 & g11 & H11 & H).
  apply putln_OK in H11 as (b3 & Hb3 & ->). apply ret_OK in H as [_ ->].
  simpl in Hb1, Hb2, Hb3.
  exists joined, b1, b2. split; [exact Hj|]. cbv zeta.
  split; [exact Hb1|]. split; [exact Hb2|]. split; [exact Hb3|].
  split; [|split; [reflexivity|split; [reflexivity|apply lookup_insert_eq]]].
  simpl. rewrite app_nil_r, !map_map, <- !app_assoc. simpl. reflexivity.
Qed.

End Functions.

(** ** Header clauses, stacks and the cleanup traversal *)

Section Runs_more.

Context {type X : Type} {collab : Collaborators type}.
Local Open Scope gen_scope.

Local Abbreviation node := (node type).

(** Every traversal, of any tree, leaves the cursor of the writer as it
    was, and the declaration levels and the loop levels too when the context
    keeps them: the pushes and pops of the loops inside the tree cancel. *)
Theorem every_run_keeps_the_levels (n : node) (g : generator X) v g' :
  context_keeps_levels ->
  visit n g = OK (v, g') ->
  code g' = code g /\
  declaration_levels (writer g') = declaration_levels (writer g) /\
  loop_levels (writer g') = loop_levels (writer g).
Proof.
  intros Hctx H. destruct (run_levels n g v g' H) as [Hc Hl].
  specialize (Hl Hctx). unfold levels in Hl. inversion Hl.
  repeat split; assumption.
Qed.

End Runs_more.

(** ** The further properties on the concrete back end *)

Lemma run_declares_the_temps_of_the_tree_witness :
  exists v g',
    visit (collab:=c_backend) (TempNode c_int "t") in_function = OK (v, g') /\
    "t" ∈ declared_temps g'.
Proof.
  destruct (visit (collab:=c_backend) (TempNode c_int "t") in_function)
    as [[v g']|e] eqn:E; [|vm_compute in E; discriminate E].
  exists v, g'. split; [reflexivity|].
  apply (run_declares_the_temps_of_the_tree (collab:=c_backend) _ _ _ _ E "t").
  right. exists c_int, "t". split; [left; reflexivity|reflexivity].
Defined.

Lemma run_names_the_labels_of_the_tree_witness :
  exists v g',
    visit (X:=unit) (collab:=c_backend) forward_jump
      (new_generator 0 new_writer tt) = OK (v, g') /\
    is_Some (label_mangled_name g' !! 2).
Proof.
  destruct (visit (X:=unit) (collab:=c_backend) forward_jump
              (new_generator 0 new_writer tt))
    as [[v g']|e] eqn:E; [|vm_compute in E; discriminate E].
  exists v, g'. split; [reflexivity|].
  apply (run_names_the_labels_of_the_tree (collab:=c_backend) _ _ _ _ E 2).
  right. exists "L". vm_compute. tauto.
Defined.

Lemma visit_result_kind_witness :
  exists s,
    VStr (type:=ctype) "x" = VStr s.
Proof.
  exact (visit_result_kind (collab:=c_backend) (VariableNode c_int "x")
           (new_generator 0 new_writer tt) (VStr "x")
           (new_generator 0 new_writer tt) eq_refl).
Defined.

Lemma assignment_of_a_statement_raises_witness :
  visit (collab:=c_backend) (AssignmentNode (StatListNode []))
    (new_generator 0 new_writer tt) = Err TypeError.
Proof.
  exact (assignment_of_a_statement_raises (collab:=c_backend)
           (StatListNode []) (new_generator 0 new_writer tt)
           (VNode (StatListNode [])) (new_generator 0 new_writer tt)
           eq_refl eq_refl).
Defined.

Lemma target_then_jump_agree_witness :
  exists v g' s,
    visit (X:=unit) (collab:=c_backend) (JumpTargetNode (LabelNode 1 "L"))
      (new_generator 0 new_writer tt) = OK (v, g') /\
    label_mangled_name g' !! 1 = Some s /\
    insert_before 0 (Line (s +:+ ":")) [Mark 0] = Some (buffer (writer g')).
Proof.
  destruct (visit (X:=unit) (collab:=c_backend)
              (JumpTargetNode (LabelNode 1 "L"))
              (new_generator 0 new_writer tt))
    as [[v g']|e] eqn:E; [|vm_compute in E; discriminate E].
  destruct (target_then_jump_agree (collab:=c_backend) 1 "L" _ v g' E)
    as (s & Hs & Hb & _).
  exists v, g', s. repeat split; assumption.
Defined.

Lemma counter_counts_named_labels_witness :
  exists v g',
    visit (X:=unit) (collab:=c_backend) forward_jump
      (new_generator 0 new_writer tt) = OK (v, g') /\
    0 <= label_counter g' /\
    label_counter g' + 0 = 0 + size (label_mangled_name g').
Proof.
  destruct (visit (X:=unit) (collab:=c_backend) forward_jump
              (new_generator 0 new_writer tt))
    as [[v g']|e] eqn:E; [|vm_compute in E; discriminate E].
  exists v, g'. split; [reflexivity|].
  exact (counter_counts_named_labels (collab:=c_backend) _ _ v g' E).
Defined.

Lemma expressions_lower_purely_witness :
  visit (collab:=c_backend)
    (BinopNode (VariableNode c_int "x") "+" (ConstantNode (IntConst 1)))
    (new_generator 0 new_writer tt)
  = OK (VStr "(x + 1)", new_generator 0 new_writer tt).
Proof.
  exact (expressions_lower_purely (collab:=c_backend)
           (BinopNode (VariableNode c_int "x") "+" (ConstantNode (IntConst 1)))
           "(x + 1)" eq_refl (new_generator 0 new_writer tt)).
Defined.

Lemma rendered_parentheses_balance_witness :
  exists t, VStr (type:=ctype) "(x + 1)" = VStr t /\ balanced t.
Proof.
  apply (rendered_parentheses_balance (collab:=c_backend)
           (BinopNode (VariableNode c_int "x") "+" (ConstantNode (IntConst 1)))
           "(x + 1)" eq_refl
           ltac:(repeat constructor)
           (new_generator 0 new_writer tt) (VStr "(x + 1)")
           (new_generator 0 new_writer tt) eq_refl).
Defined.

Lemma function_prologue_witness :
  exists v g',
    visit_FunctionNode (collab:=c_backend) plain_spy 0 "f" ""
      [VariableNode c_int "x"] (VariableNode c_int "b")
      (new_generator 0 new_writer []) = OK (v, g') /\
    proto_code (writer g') = [] ++ ["static int f(e);"] /\
    declaration_point (writer g') = Some 1.
Proof.
  destruct (visit_FunctionNode (collab:=c_backend) plain_spy 0 "f" ""
              [VariableNode c_int "x"] (VariableNode c_int "b")
              (new_generator 0 new_writer [])) as [[v g']|e] eqn:E;
    [|vm_compute in E; discriminate E].
  destruct (function_prologue (collab:=c_backend) _ _ _ _ _ _ _ v g' E)
    as (joined & b1 & b2 & Hj & _ & _ & _ & _ & Hp & Hd & _).
  inversion Hj; subst joined.
  exists v, g'. repeat split; assumption.
Defined.

Lemma every_run_keeps_the_levels_witness :
  exists v g',
    visit (X:=unit) (collab:=c_backend) (StatListNode [guarded_loop])
      (new_generator 0 new_writer tt) = OK (v, g') /\
    code g' = 0 /\
    declaration_levels (writer g') = [] /\ loop_levels (writer g') = [].
Proof.
  destruct (visit (X:=unit) (collab:=c_backend) (StatListNode [guarded_loop])
              (new_generator 0 new_writer tt))
    as [[v g']|e] eqn:E; [|vm_compute in E; discriminate E].
  exists v, g'. split; [reflexivity|].
  exact (every_run_keeps_the_levels _ _ v g' c_backend_keeps_levels E).
Defined.

(** ** Statements of expressions, arguments, loops that cannot raise *)

Section Statements.

Context {type X : Type} {collab : Collaborators type}.
Local Open Scope gen_scope.

Local Abbreviation node := (node type).

(** [return] and assignment of an expression: one line, [return <text>;]
    or [<text>;], goes in at the cursor of the generator and nothing else
    changes; without the marker of the cursor in the buffer the statement
    raises instead. *)
Theorem statement_of_an_expression (n : node) (s : string) (g : generator X) :
  render n = Some s ->
  visit (ReturnNode n) g
  = match insert_before (code g) (Line ("return " +:+ s +:+ ";"))
            (buffer (writer g)) with
    | Some b => OK (VNone, set_writer (set_buffer b (writer g)) g)
    | None => Err ValueError
    end /\
  visit (AssignmentNode n) g
  = match insert_before (code g) (Line (s +:+ ";")) (buffer (writer g)) with
    | Some b => OK (VNone, set_writer (set_buffer b (writer g)) g)
    | None => Err ValueError
    end.
Proof.
  intros Hr. pose proof (render_visit n s Hr g) as Hv. split.
  - rewrite visit_unfold. simpl. unfold visit_ReturnNode, results.
    simpl results_from. unfold bind.
    change (self_visit (Some n) g) with (visit n g). rewrite Hv.
    unfold ret, lift. simpl percent. cbv iota beta.
    change ("r" +:+ "e" +:+ "t" +:+ "u" +:+ "r" +:+ "n" +:+ " " +:+ s
            +:+ ";" +:+ "") with ("return " +:+ s +:+ ";").
    unfold putln, bind, get, putln_at, writer_putln.
    destruct (insert_before (code g) (Line ("return " +:+ s +:+ ";"))
                (buffer (writer g))); reflexivity.
  - rewrite visit_unfold. simpl. unfold visit_AssignmentNode, bind.
    change (self_visit (Some n) g) with (visit n g). rewrite Hv.
    unfold lift, add_str. cbv iota beta.
    unfold putln, bind, get, putln_at, writer_putln.
    destruct (insert_before (code g) (Line (s +:+ ";")) (buffer (writer g)));
      reflexivity.
Qed.

Lemma append_assoc (a b c : string) : (a +:+ b) +:+ c = a +:+ b +:+ c.
Proof.
  induction a as [|x a IH]; [reflexivity|].
  change (String x ((a +:+ b) +:+ c) = String x (a +:+ b +:+ c)).
  rewrite IH. reflexivity.
Qed.

Lemma join_strings (sep : string) (l : list string) :
  join (type:=type) sep (map VStr l) = OK (String.concat sep l).
Proof.
  induction l as [|x [|y r] IH]; [reflexivity|reflexivity|].
  change (join sep (map VStr (x :: y :: r)))
    with (prepend (x +:+ sep) (join (type:=type) sep (map VStr (y :: r)))).
  rewrite IH. unfold prepend.
  change (String.concat sep (x :: y :: r))
    with (x +:+ sep +:+ String.concat sep (y :: r)).
  rewrite append_assoc. reflexivity.
Qed.

Lemma mapM_map_stateless {A B C} (f : A -> M X B) (c : C -> A) (h : C -> B)
  (l : list C) (g : generator X) :
  (forall p k, f (c p) k = OK (h p, k)) ->
  mapM f (map c l) g = OK (map h l, g).
Proof.
  intros Hf. induction l as [|p r IH]; [reflexivity|].
  change (mapM f (map c (p :: r)) g)
    with (bind (f (c p))
            (fun v => bind (mapM f (map c r)) (fun vs => ret (v :: vs))) g).
  unfold bind at 1. rewrite Hf. unfold bind. rewrite IH. reflexivity.
Qed.

(** The arguments of a function that are variables render as
    [<type> <mangled name>], joined by a comma and a space, and the
    generator is left as it was; no variable gives the empty string. *)
Theorem function_argument_of_variables (vars : list (type * string))
  (g : generator X) :
  visit (FunctionArgument
           (map (fun p => VariableNode (fst p) (snd p)) vars)) g
  = OK (VStr (String.concat ", "
                (map (fun p => declare_type (fst p) +:+ " " +:+ mangle (snd p))
                     vars)), g).
Proof.
  rewrite visit_unfold. simpl. unfold visit_FunctionArgument.
  unfold bind at 1.
  rewrite (mapM_map_stateless _
             (fun p : type * string => VariableNode (fst p) (snd p))
             (fun p => VStr (declare_type (fst p) +:+ " " +:+ mangle (snd p)))).
  - rewrite <- map_map. unfold bind, lift. rewrite join_strings. reflexivity.
  - intros [ty name] k. unfold bind at 1. simpl lift. cbv iota beta.
    unfold bind at 1. simpl self_visit. unfold visit_Variable, ret at 1.
    cbv iota beta. unfold bind, lift, ret. simpl percent. cbv iota beta.
    simpl fst. simpl snd.
    change ("" +:+ declare_type ty +:+ " " +:+ mangle name +:+ "")
      with (declare_type ty +:+ " " +:+ (mangle name +:+ "")).
    rewrite append_empty_r. reflexivity.
Qed.

End Statements.

Section Loops_more.

Context {type : Type} {collab : Collaborators type}.
Local Open Scope gen_scope.

Local Abbreviation node := (node type).

(** A tiled loop whose body cannot raise, on the test double: the [for]
    line goes in at the cursor, the context generates the disposal code of
    the body through the writer of the generator itself, and the closing
    brace follows; the error handler of the context is not asked for, and
    the two stacks are only touched by the context. *)
Theorem tiled_loop_without_handler tag (init condition step : option node)
  (body : node) (g : generator calls) v g' :
  may_error body = false ->
  visit_ForNode (spy tag) init condition step body true g = OK (v, g') ->
  exists b1 b2,
    insert_before (code g)
      (Line ("for (" +:+ str (tag init) +:+ "; " +:+ str (tag condition)
             +:+ "; " +:+ str (tag step) +:+ ") {"))
      (buffer (writer g)) = Some b1 /\
    insert_before (code g) (Line "}")
      (buffer (generate_disposal_code (code g) body
                 (set_buffer b1 (writer g)))) = Some b2 /\
    writer g'
    = set_buffer b2
        (generate_disposal_code (code g) body (set_buffer b1 (writer g))).
Proof.
  intros Hmay H. unfold visit_ForNode in H. rewrite Hmay in H.
  apply bind_OK in H as (eh & g1 & H1 & H). apply ret_OK in H1 as [-> ->].
  apply bind_OK in H as (exprs & g2 & H2 & H).
  unfold results in H2. rewrite spy_results_from in H2.
  inversion H2; subst exprs g2; clear H2. simpl visited in H. simpl map in H.
  apply bind_OK in H as (line & g3 & H3 & H).
  apply lift_OK in H3 as [H3 ->]. simpl app in H3. rewrite percent_for in H3.
  inversion H3; subst line; clear H3.
  apply bind_OK in H as (u1 & g4 & H4 & H).
  apply putln_OK in H4 as (b1 & Hb1 & ->). simpl in Hb1.
  apply bind_OK in H as (u2 & g5 & H5 & H). simpl in H5.
  apply ret_OK in H5 as [_ ->].
  apply bind_OK in H as (v1 & g6 & H6 & H).
  unfold spy in H6. inversion H6; subst v1 g6; clear H6.
  apply bind_OK in H as (v2 & g7 & H7 & H).
  unfold spy in H7. inversion H7; subst v2 g7; clear H7.
  apply bind_OK in H as (dp & g8 & H8 & H).
  apply bind_OK in H8 as (g0 & g9 & H9 & H8). apply get_OK in H9 as [-> ->].
  apply ret_OK in H8 as [-> ->].
  apply bind_OK in H as (g0 & g9 & H9 & H). apply get_OK in H9 as [-> ->].
  apply bind_OK in H as (u3 & g10 & H10 & H). apply modify_OK in H10 as ->.
  apply bind_OK in H as (u4 & g11 & H11 & H). simpl in H11.
  apply ret_OK in H11 as [_ ->].
  apply bind_OK in H as (u5 & g12 & H12 & H).
  apply putln_OK in H12 as (b2 & Hb2 & ->). apply ret_OK in H as [_ ->].
  simpl in Hb2. exists b1, b2. repeat split; assumption.
Qed.

End Loops_more.

Lemma statement_of_an_expression_witness :
  visit (collab:=c_backend) (ReturnNode (VariableNode c_int "x"))
    (new_generator 0 new_writer tt)
  = OK (VNone,
        set_writer (set_buffer [Line "return x;"; Mark 0] new_writer)
          (new_generator 0 new_writer tt)).
Proof.
  exact (proj1 (statement_of_an_expression (collab:=c_backend)
                  (VariableNode c_int "x") "x"
                  (new_generator 0 new_writer tt) eq_refl)).
Defined.

Lemma tiled_loop_without_handler_witness :
  exists v g' b1 b2,
    visit_ForNode (collab:=c_backend) plain_spy
      (Some (VariableNode c_int "i")) (Some (VariableNode c_int "c"))
      (Some (VariableNode c_int "s")) (VariableNode c_int "b") true
      (new_generator 0 new_writer []) = OK (v, g') /\
    insert_before 0 (Line "for (e; e; e) {") [Mark 0] = Some b1 /\
    buffer (writer g') = b2.
Proof.
  destruct (visit_ForNode (collab:=c_backend) plain_spy
              (Some (VariableNode c_int "i")) (Some (VariableNode c_int "c"))
              (Some (VariableNode c_int "s")) (VariableNode c_int "b") true
              (new_generator 0 new_writer [])) as [[v g']|e] eqn:E;
    [|vm_compute in E; discriminate E].
  destruct (fun H => tiled_loop_without_handler (collab:=c_backend)
                        _ _ _ _ _ _ v g' H E) as (b1 & b2 & Hb1 & _ & Hw);
    [reflexivity|].
  exists v, g', b1, b2. split; [reflexivity|]. split; [exact Hb1|].
  rewrite Hw. reflexivity.
Defined.
